(** * snort-rule-profiler: a shallow embedding of [profiler.py]

    The development follows [parseMessages] of [profiler.py] stage by stage:
    the three compiled patterns ([scanHeader], [scanPid], [scanStatLine]),
    the demultiplexing loop filling [logStreamList] and [logStreams], the
    accumulation into [statsTable], the averaging into [avgStatsTable], and
    the printing of the report.

    Conventions of the embedding.
    - Text is [list ascii]; a character is an 8-bit code point.
    - A Python [dict] is an insertion-ordered association list with unique
      keys (the order [for k in d] visits them, Python 3.7 and later).
    - [re] patterns are values of a small pattern type, run by a
      backtracking matcher with Python's greedy priorities.
    - Floating point is an interface ([PyFloat]): the built-ins [float],
      [sum], [/], [round], [<] and the text of a float are operations of a
      class; [Binary64] instantiates it with IEEE-754 double arithmetic.
    - Printing and exceptions are threaded through a small monad over the
      two output streams. *)

From Stdlib Require Import Ascii String Bool Arith Lia ZArith NArith List.
From Stdlib Require Import Sorting.Sorted Sorting.Permutation DecimalString.
Import ListNotations.

Set Implicit Arguments.

(** ** Text *)

Definition str := list ascii.

Definition s2l (s : string) : str := list_ascii_of_string s.

Definition str_eqb (a b : str) : bool :=
  if list_eq_dec ascii_dec a b then true else false.

Definition in_list (x : str) (l : list str) : bool := existsb (str_eqb x) l.

Definition newline : ascii := ascii_of_nat 10.

Definition is_digit (c : ascii) : bool :=
  let n := nat_of_ascii c in (48 <=? n) && (n <=? 57).

(** [str.isspace] on code points below 256. *)
Definition is_space (c : ascii) : bool :=
  let n := nat_of_ascii c in
  ((9 <=? n) && (n <=? 13)) || ((28 <=? n) && (n <=? 32))
  || (n =? 133) || (n =? 160).

(** [s.rstrip()]: drop the trailing run of whitespace. *)
Fixpoint rstrip (s : str) : str :=
  match s with
  | [] => []
  | c :: s' =>
      match rstrip s' with
      | [] => if is_space c then [] else [c]
      | r => c :: r
      end
  end.

(** ** Patterns and the backtracking matcher *)

Module Re.

Inductive cls := Any | Digit | Only (c : ascii).

Definition cls_match (k : cls) (c : ascii) : bool :=
match k with
| Any => negb (Ascii.eqb c newline)
| Digit => is_digit c
| Only d => Ascii.eqb c d
end.

(** One character, a greedy [*] or a greedy [+] over a character class. *)
Inductive atom := One (k : cls) | Star (k : cls) | Plus (k : cls).

(** A pattern is a sequence of atoms and of capturing groups of atoms. *)
Inductive item := A (a : atom) | G (g : list atom).

Definition pattern := list item.

Section Matcher.
Variable R : Type.

(** Greedy repetition: take one more character when possible and come
  back to the continuation only when everything further on failed. *)
Fixpoint rep (k : cls) (s : str) (cont : str -> option R) : option R :=
match s with
| c :: s' =>
    if cls_match k c then
      match rep k s' cont with
      | Some r => Some r
      | None => cont s
      end
    else cont s
| [] => cont s
end.

Definition run_atom (a : atom) (s : str) (cont : str -> option R)
: option R :=
match a with
| One k =>
    match s with
    | c :: s' => if cls_match k c then cont s' else None
    | [] => None
    end
| Star k => rep k s cont
| Plus k =>
    match s with
    | c :: s' => if cls_match k c then rep k s' cont else None
    | [] => None
    end
end.

Fixpoint run_atoms (p : list atom) (s : str) (cont : str -> option R)
: option R :=
match p with
| [] => cont s
| a :: p' => run_atom a s (fun s' => run_atoms p' s' cont)
end.
End Matcher.

(** The text a group consumed: what lies between the input at its opening
  and the input at its closing. *)
Definition consumed (s s' : str) : str := firstn (length s - length s') s.

(** Run a pattern at the start of [s]; the result is [m.groups()]. *)
Fixpoint run (p : pattern) (s : str) (caps : list str) : option (list str) :=
match p with
| [] => Some caps
| A a :: p' => run_atom a s (fun s' => run p' s' caps)
| G g :: p' =>
    run_atoms g s (fun s' => run p' s' (caps ++ [consumed s s']))
end.

(** [pattern.match(s)] *)
Definition rmatch (p : pattern) (s : str) : option (list str) := run p s [].

(** [pattern.search(s)]: the leftmost position where the pattern matches. *)
Fixpoint search (p : pattern) (s : str) : option (list str) :=
match rmatch p s with
| Some r => Some r
| None => match s with
          | [] => None
          | _ :: s' => search p s'
          end
end.

Definition lit (s : string) : pattern := map (fun c => A (One (Only c))) (s2l s).

End Re.

Import Re.

(** ** The constants of the script *)

(** [SCAN_HEADER = "Rule Profile Statistics \(all rules\)"] *)
Definition SCAN_HEADER : pattern := lit "Rule Profile Statistics (all rules)".

Definition OUTPUT_HEADINGS : list str :=
  map s2l [ "Num"; "SID"; "GID"; "Rev"; "Checks"; "Matches";
            "Alerts"; "Microsecs"; "Avg/Check"; "Avg/Match";
            "Avg/Nonmatch"; "dis" ]%string.

(** [scanPid = re.compile(".*\[(\d+)\]:.*")] *)
Definition scanPid : pattern :=
  [ A (Star Any); A (One (Only "[")); G [Plus Digit];
    A (One (Only "]")); A (One (Only ":")); A (Star Any) ]%char.

Definition sp : item := A (Plus (Only " "%char)).
Definition int_group : item := G [Plus Digit].
Definition dec_group : item :=
  G [Plus Digit; One (Only "."%char); Plus Digit].

(** [scanStatLine]: the identifier token, then twelve captured fields,
    each preceded by [[ ]+]. *)
Definition scanStatLine : pattern :=
  [ A (Star Any); A (One (Only "["%char)); A (Plus Digit);
    A (One (Only "]"%char)); A (One (Only ":"%char)) ]
  ++ [ sp; int_group; sp; int_group; sp; int_group; sp; int_group;
       sp; int_group; sp; int_group; sp; int_group; sp; int_group;
       sp; dec_group; sp; dec_group; sp; dec_group; sp; int_group ].

Definition scanHeader : pattern := SCAN_HEADER.

(** ** Dictionaries

    A [dict] keyed by text, in insertion order.  [set] is [d[k] = v]: it
    overwrites in place or appends a new key; [upd] is an in-place change
    of the object stored under a key that is present, as in
    [d[k].append(x)]. *)

Module Dict.
Section Ops.
Variable V : Type.

Definition t := list (str * V).

Fixpoint get (k : str) (d : t) : option V :=
match d with
| [] => None
| (k', v) :: d' => if str_eqb k k' then Some v else get k d'
end.

Definition mem (k : str) (d : t) : bool :=
match get k d with Some _ => true | None => false end.

Fixpoint set (k : str) (v : V) (d : t) : t :=
match d with
| [] => [(k, v)]
| (k', v') :: d' =>
    if str_eqb k k' then (k', v) :: d' else (k', v') :: set k v d'
end.

Fixpoint upd (k : str) (f : V -> V) (d : t) : t :=
match d with
| [] => []
| (k', v') :: d' =>
    if str_eqb k k' then (k', f v') :: d' else (k', v') :: upd k f d'
end.

Definition keys (d : t) : list str := map fst d.
End Ops.
End Dict.

(** ** Floating point as an interface

    What the script asks of Python floats: [float(text)], [sum(list)],
    [x / len(list)], [round(x, 1)], [x < y] (used by [sorted]) and the text
    [format] gives a float without a presentation type. *)

Class PyFloat := {
  float : Type;
  float_of : str -> float;
  fsum : list float -> float;
  fdiv : float -> nat -> float;
  round1 : float -> float;
  flt : float -> float -> bool;
  fstr : float -> str
}.

(** [<] on the floats is a strict weak order (no NaN arises from
    non-negative inputs). *)
Class PyFloatOrder (F : PyFloat) : Prop := {
  flt_asym : forall x y : float, flt x y = true -> flt y x = false;
  flt_negtrans : forall x y z : float,
      flt x y = false -> flt y z = false -> flt x z = false
}.

(** The mean of a one-element list is its element, [(0 + v) / 1 = v],
    for the values [float] reads. *)
Class PyFloatMean (F : PyFloat) : Prop := {
  mean_single : forall s : str,
      fdiv (fsum [float_of s]) 1 = float_of s
}.

(** ** Exceptions and the two output streams *)

Inductive exn :=
| UnboundLocalError (name : string)
| ZeroDivisionError
| ValueError.

Record console := { stdout : list str; stderr : list str }.

Definition IO (A : Type) := console -> (A + exn) * console.

Definition ret {A} (a : A) : IO A := fun c => (inl a, c).

Definition raise {A} (e : exn) : IO A := fun c => (inr e, c).

Definition bind {A B} (m : IO A) (f : A -> IO B) : IO B :=
  fun c => match m c with
           | (inl a, c') => f a c'
           | (inr e, c') => (inr e, c')
           end.

Notation "x <- m ;; k" := (bind m (fun x => k))
  (at level 61, m at next level, right associativity).
Notation "m ;;; k" := (bind m (fun _ => k))
  (at level 61, right associativity).

(** [print(s)] and [eprint(s)]: one more line on the stream. *)
Definition print (s : str) : IO unit :=
  fun c => (inl tt, {| stdout := stdout c ++ [s]; stderr := stderr c |}).

Definition eprint (s : str) : IO unit :=
  fun c => (inl tt, {| stdout := stdout c; stderr := stderr c ++ [s] |}).

Definition lift {A} (r : A + exn) : IO A :=
  match r with inl a => ret a | inr e => raise e end.

(** [for x in l: body(x)] *)
Fixpoint for_each {A} (l : list A) (body : A -> IO unit) : IO unit :=
  match l with
  | [] => ret tt
  | x :: l' => body x ;;; for_each l' body
  end.

(** ** Formatting *)

(** [" " * n + s] when [s] is shorter than [w]: the [{:>w}] field. *)
Definition rjust (w : nat) (s : str) : str :=
  repeat " "%char (w - length s) ++ s.

Inductive piece := Text (s : str) | Field (width : nat).

(** [fmt.format( *args )]: the fields take the arguments in order; every
    call of the script passes as many arguments as there are fields. *)
Fixpoint format (fmt : list piece) (args : list str) : str :=
  match fmt with
  | [] => []
  | Text s :: fmt' => s ++ format fmt' args
  | Field w :: fmt' =>
      match args with
      | a :: args' => rjust w a ++ format fmt' args'
      | [] => format fmt' []
      end
  end.

Definition OUTPUT_FORMAT : list piece :=
  let f w := [Text (s2l " "); Field w] in
  f 6 ++ f 8 ++ f 3 ++ f 3 ++ f 11 ++ f 11
  ++ f 9 ++ f 19 ++ f 9 ++ f 9 ++ f 12 ++ f 9.

(** [str(n)] for the [int] that [len] returns. *)
Definition int_str (n : nat) : str :=
  s2l (DecimalString.NilEmpty.string_of_uint (Nat.to_uint n)).

(** [OUTPUT_HEADER.format(n)] *)
Definition OUTPUT_HEADER (n : nat) : str :=
  s2l "Average Rule Profile Statistics (across " ++ int_str n
  ++ s2l " processes)" ++ s2l " (all rules)".

(** ** [parseMessages]: separating the streams *)

Record streams := {
  logStreamList : list str;
  logStreams : Dict.t (list str)
}.

Definition no_streams : streams :=
  {| logStreamList := []; logStreams := [] |}.

(** [m.group(1)] of [scanPid.match(line)], when there is a match. *)
Definition pid_of (line : str) : option str :=
  match rmatch scanPid line with
  | Some gs => Some (nth 0 gs [])
  | None => None
  end.

(** [scanHeader.search(line)] as a truth value. *)
Definition has_header (line : str) : bool :=
  match search scanHeader line with Some _ => true | None => false end.

(** The body of [for line in fh]. *)
Definition demux_step (st : streams) (line : str) : streams :=
  match pid_of line with
  | Some pid =>
      let lsl := if has_header line
                 then logStreamList st ++ [pid]
                 else logStreamList st in
      if in_list pid lsl then
        let ls := if Dict.mem pid (logStreams st)
                  then logStreams st
                  else Dict.set pid [] (logStreams st) in
        {| logStreamList := lsl;
           logStreams := Dict.upd pid (fun l => l ++ [rstrip line]) ls |}
      else {| logStreamList := lsl; logStreams := logStreams st |}
  | None => st
  end.

Definition demux (lines : list str) : streams :=
  fold_left demux_step lines no_streams.

(** ** [parseMessages]: the tables *)

Section Tables.
Context {F : PyFloat}.

(** The value stored under a signature in [statsTable]. *)
Record samples := {
  rank : list float; checks : list float; matches : list float;
  alerts : list float; ms : list float; ac : list float;
  am : list float; an : list float; dis : list float
}.

Definition no_samples : samples :=
  {| rank := []; checks := []; matches := []; alerts := []; ms := [];
     ac := []; am := []; an := []; dis := [] |}.

(** The value stored under a signature in [avgStatsTable]. *)
Record averages := {
  avg_rank : float; avg_checks : float; avg_matches : float;
  avg_alerts : float; avg_ms : float; avg_ac : float;
  avg_am : float; avg_an : float; avg_dis : float
}.

(** The twelve groups of a matched line, as the script names them. *)
Record stat_row := {
  g_rank : str; g_sid : str; g_gid : str; g_rev : str;
  g_checks : str; g_matches : str; g_alerts : str; g_ms : str;
  g_ac : str; g_am : str; g_an : str; g_dis : str
}.

(** [m = scanStatLine.match(line)] under [if (m and len(m.groups()) == 12)] *)
Definition stat_of (line : str) : option stat_row :=
  match rmatch scanStatLine line with
  | Some [rank; sid; gid; rev; checks; matches; alerts; ms; ac; am; an; dis]
    => Some {| g_rank := rank; g_sid := sid; g_gid := gid; g_rev := rev;
               g_checks := checks; g_matches := matches;
               g_alerts := alerts; g_ms := ms; g_ac := ac; g_am := am;
               g_an := an; g_dis := dis |}
  | _ => None
  end.

(** ["{}:{}:{}".format(gid, sid, rev)] *)
Definition sig_of (r : stat_row) : str :=
  g_gid r ++ s2l ":" ++ g_sid r ++ s2l ":" ++ g_rev r.

(** The nine appends. *)
Definition add_sample (r : stat_row) (s : samples) : samples :=
  {| rank := rank s ++ [float_of (g_rank r)];
     checks := checks s ++ [float_of (g_checks r)];
     matches := matches s ++ [float_of (g_matches r)];
     alerts := alerts s ++ [float_of (g_alerts r)];
     ms := ms s ++ [float_of (g_ms r)];
     ac := ac s ++ [float_of (g_ac r)];
     am := am s ++ [float_of (g_am r)];
     an := an s ++ [float_of (g_an r)];
     dis := dis s ++ [float_of (g_dis r)] |}.

(** The body of [for line in logStreams[k]]. *)
Definition stats_step (t : Dict.t samples) (line : str) : Dict.t samples :=
  match stat_of line with
  | Some r =>
      let sig := sig_of r in
      let t1 := if Dict.mem sig t then t else Dict.set sig no_samples t in
      Dict.upd sig (add_sample r) t1
  | None => t
  end.

(** [for k in logStreams: for line in logStreams[k]: ...] *)
Definition statsTable (ls : Dict.t (list str)) : Dict.t samples :=
  fold_left (fun t kv => fold_left stats_step (snd kv) t) ls [].

(** [round(sum(l)/len(l), 1)]; dividing by [len(l) = 0] raises. *)
Definition round_mean (l : list float) : float + exn :=
  match length l with
  | 0 => inr ZeroDivisionError
  | n => inl (round1 (fdiv (fsum l) n))
  end.

Definition try {A B} (r : A + exn) (f : A -> B + exn) : B + exn :=
  match r with inl a => f a | inr e => inr e end.

(** The nine [aST.update] lines, in order. *)
Definition average (sT : samples) : averages + exn :=
  try (round_mean (rank sT)) (fun a1 =>
  try (round_mean (checks sT)) (fun a2 =>
  try (round_mean (matches sT)) (fun a3 =>
  try (round_mean (alerts sT)) (fun a4 =>
  try (round_mean (ms sT)) (fun a5 =>
  try (round_mean (ac sT)) (fun a6 =>
  try (round_mean (am sT)) (fun a7 =>
  try (round_mean (an sT)) (fun a8 =>
  try (round_mean (dis sT)) (fun a9 =>
  inl {| avg_rank := a1; avg_checks := a2; avg_matches := a3;
         avg_alerts := a4; avg_ms := a5; avg_ac := a6; avg_am := a7;
         avg_an := a8; avg_dis := a9 |}))))))))).

(** [for k in statsTable: ...] filling [avgStatsTable]. *)
Fixpoint avg_loop (todo : Dict.t samples) (acc : Dict.t averages)
  : Dict.t averages + exn :=
  match todo with
  | [] => inl acc
  | (k, sT) :: todo' =>
      try (average sT) (fun a => avg_loop todo' (Dict.set k a acc))
  end.

Definition avgStatsTable (st : Dict.t samples) : Dict.t averages + exn :=
  avg_loop st [].

(** [sorted(..., key=...)]: a stable sort that compares keys with [<]
    only.  [insert_by] puts [x] in front of the first element whose key
    is not below the key of [x]. *)
Section Sorted.
Variable T : Type.
Variable key : T -> float.

Fixpoint insert_by (x : T) (l : list T) : list T :=
  match l with
  | [] => [x]
  | y :: l' =>
      if flt (key y) (key x) then y :: insert_by x l' else x :: y :: l'
  end.

Definition sorted (l : list T) : list T := fold_right insert_by [] l.
End Sorted.

(** The entries of [avgStatsTable] in the order of [sorted_keys]: each
    key travels with [avgStatsTable[k]], the value its key function and
    the printing loop look up. *)
Definition sorted_entries (avg : Dict.t averages)
  : list (str * averages) :=
  sorted (fun kv => avg_rank (snd kv)) avg.

End Tables.

(** ** [parseMessages]: the report *)

(** [s.split(c)] *)
Fixpoint split_on (c : ascii) (s : str) : list str :=
  match s with
  | [] => [[]]
  | x :: s' =>
      if Ascii.eqb x c then [] :: split_on c s'
      else match split_on c s' with
           | p :: ps => (x :: p) :: ps
           | [] => [[x]]
           end
  end.

Section Report.
Context {F : PyFloat}.

(** The twelve arguments of the data row of signature [gid:sid:rev]. *)
Definition row_cells (gid sid rev : str) (vals : averages) : list str :=
  [ fstr (avg_rank vals); sid; gid; rev;
    fstr (avg_checks vals); fstr (avg_matches vals);
    fstr (avg_alerts vals); fstr (avg_ms vals);
    fstr (avg_ac vals); fstr (avg_am vals); fstr (avg_an vals);
    fstr (avg_dis vals) ].

(** The body of [for k in sorted_keys]; the unpacking of [k.split(":")]
    raises unless there are three parts. *)
Definition print_row (kv : str * averages) : IO unit :=
  match split_on ":"%char (fst kv) with
  | [gid; sid; rev] =>
      print (format OUTPUT_FORMAT (row_cells gid sid rev (snd kv)))
  | _ => raise ValueError
  end.

(** [print("", outHdr)] writes its two arguments with a space between. *)
Definition print_head (n : nat) : IO unit :=
  let outHdr := OUTPUT_HEADER n in
  let underLines := map (fun hdr => repeat "="%char (length hdr))
                        OUTPUT_HEADINGS in
  print (s2l " " ++ outHdr) ;;;
  print (s2l " " ++ repeat "="%char (length outHdr)) ;;;
  print (format OUTPUT_FORMAT OUTPUT_HEADINGS) ;;;
  print (format OUTPUT_FORMAT underLines).

(** What the system gives the script: [open(fn, 'r')] (the lines of the
    file, or [None] when opening raises) and the lines of [sys.stdin].
    A source is read to its end: a failure while reading, as on bytes
    that do not decode, is outside the model. *)
Record env := {
  open_file : str -> option (list str);
  stdin_lines : list str
}.

(** The binding of [fh]: [Some] lines of the source, or no binding at
    all when [open] raised and the handler only reported it. *)
Definition bind_fh (e : env) (fn : option str) : IO (option (list str)) :=
  match fn with
  | Some (c :: n) =>
      match open_file e (c :: n) with
      | Some ls => ret (Some ls)
      | None => eprint (s2l "Error opening " ++ (c :: n)) ;;; ret None
      end
  | _ => ret (Some (stdin_lines e))
  end.

(** Everything after the binding of [fh], on the lines [fh] yields. *)
Definition process (lines : list str) : IO unit :=
  let ls := logStreams (demux lines) in
  avg <- lift (avgStatsTable (statsTable ls)) ;;
  let entries := sorted_entries avg in
  print_head (length ls) ;;;
  for_each entries print_row.

Definition parseMessages (e : env) (fn : option str) : IO unit :=
  fh <- bind_fh e fn ;;
  match fh with
  | Some lines => process lines
  | None => raise (UnboundLocalError "fh")
  end.

Definition start : console := {| stdout := []; stderr := [] |}.
End Report.

(** ** IEEE-754 binary64 on the non-negative range

    A non-negative double is its bit pattern, an integer between [0] and
    [INF]: below [2^52] a subnormal, then the biased exponent in the bits
    above the 52 mantissa bits.  On these patterns the numeric order is the
    order of the integers.  Every operation is the exact rational result
    rounded to nearest, ties to even. *)

Module Binary64.
Local Open Scope Z_scope.

Definition t := Z.

Definition INF : t := 2047 * 2 ^ 52.

(** The fraction [n / d] divided by [2^e]. *)
Definition scale (n d e : Z) : Z * Z :=
(n * 2 ^ Z.max 0 (- e), d * 2 ^ Z.max 0 e).

(** [floor (log2 (n / d))] for positive [n] and [d]. *)
Definition log2_frac (n d : Z) : Z :=
let e0 := Z.log2 n - Z.log2 d in
let (n', d') := scale n d e0 in
if n' <? d' then e0 - 1 else e0.

(** [n / d] to the nearest integer, ties to even. *)
Definition round_half_even (n d : Z) : Z :=
let m := n / d in
let r := n mod d in
if (d <? 2 * r) || ((d =? 2 * r) && Z.odd m) then m + 1 else m.

(** The double nearest to [n / d], for [0 <= n] and [0 < d]. *)
Definition of_frac (n d : Z) : t :=
if n =? 0 then 0
else
  let e := Z.max (log2_frac n d - 52) (-1074) in
  let (n', d') := scale n d e in
  let m := round_half_even n' d' in
  Z.min INF ((e + 1074) * 2 ^ 52 + m).

(** The value of a finite pattern as mantissa and exponent, [m * 2^e]. *)
Definition decode (x : t) : Z * Z :=
if x <? 2 ^ 53 then (x, -1074)
else (2 ^ 52 + x mod 2 ^ 52, x / 2 ^ 52 - 1075).

(** The value of a finite pattern as a fraction. *)
Definition to_frac (x : t) : Z * Z :=
let (m, e) := decode x in scale m 1 (- e).

Definition add (x y : t) : t :=
if (INF <=? x) || (INF <=? y) then INF
else
  let (nx, dx) := to_frac x in
  let (ny, dy) := to_frac y in
  of_frac (nx * dy + ny * dx) (dx * dy).

(** [x / n] for a positive integer [n]. *)
Definition div_nat (x : t) (n : nat) : t :=
if INF <=? x then INF
else let (nx, dx) := to_frac x in of_frac nx (dx * Z.of_nat n).

(** [round(x, 1)]: the exact value to one decimal, ties to even, then
  the double nearest to that decimal. *)
Definition round_1 (x : t) : t :=
if INF <=? x then INF
else let (nx, dx) := to_frac x in
     of_frac (round_half_even (10 * nx) dx) 10.

Definition digit_val (c : ascii) : Z := Z.of_nat (nat_of_ascii c) - 48.

(** The digits of [s] as a number over a power of ten: the numerator, and
  the denominator once the point has been passed. *)
Fixpoint read_decimal (s : str) (n : Z) (d : option Z) : Z * Z :=
match s with
| [] => (n, match d with Some k => k | None => 1 end)
| c :: s' =>
    if is_digit c then
      read_decimal s' (10 * n + digit_val c)
                   (match d with Some k => Some (10 * k) | None => None end)
    else read_decimal s' n (Some 1)
end.

(** [float(s)] on the texts the groups capture: digits, with or without
  a point. *)
Definition of_text (s : str) : t :=
let (n, d) := read_decimal s 0 None in of_frac n d.

(** [sum(l)]: start from [0] and add from left to right. *)
Definition sum (l : list t) : t := fold_left add l 0.

Definition ltb (x y : t) : bool := x <? y.

(** *** The text of a float: the shortest decimal that reads back *)

(** The fraction [n / d] divided by [10^k]. *)
Definition scale10 (n d k : Z) : Z * Z :=
(n * 10 ^ Z.max 0 (- k), d * 10 ^ Z.max 0 k).

Fixpoint log10_adjust (fuel : nat) (n d k : Z) : Z :=
match fuel with
| O => k
| S fuel' =>
    let (n', d') := scale10 n d k in
    if n' <? d' then log10_adjust fuel' n d (k - 1)
    else if 10 * d' <=? n' then log10_adjust fuel' n d (k + 1)
    else k
end.

(** [floor (log10 (n / d))], from the binary logarithm. *)
Definition log10_frac (n d : Z) : Z :=
log10_adjust 8 n d (log2_frac n d * 30103 / 100000).

(** Does the decimal [c * 10^q] read back as [x]? *)
Definition reads_back (x : t) (c q : Z) : bool :=
let (n, d) := scale10 c 1 (- q) in of_frac n d =? x.

(** With [p] significant digits, the decimals just below and just above
  the value; the nearer one that reads back, if any (the even one when
  they are equally near). *)
Definition digits_at (x : t) (n d k : Z) (p : nat) : option (Z * Z) :=
let q := k - (Z.of_nat p - 1) in
let (n', d') := scale10 n d q in
let lo := n' / d' in
let r := n' mod d' in
let hi := lo + 1 in
match reads_back x lo q, reads_back x hi q with
| true, true =>
    if (2 * r <? d') || ((2 * r =? d') && Z.even lo)
    then Some (lo, q) else Some (hi, q)
| true, false => Some (lo, q)
| false, true => Some (hi, q)
| false, false => None
end.

Fixpoint shortest (x : t) (n d k : Z) (p : nat) (fuel : nat) : Z * Z :=
match fuel with
| O => (0, 0)
| S fuel' =>
    match digits_at x n d k p with
    | Some r => r
    | None => shortest x n d k (S p) fuel'
    end
end.

Fixpoint strip_zeros (fuel : nat) (c q : Z) : Z * Z :=
match fuel with
| O => (c, q)
| S fuel' =>
    if (c mod 10 =? 0) && (0 <? c) then strip_zeros fuel' (c / 10) (q + 1)
    else (c, q)
end.

Definition Z_str (z : Z) : str :=
s2l (DecimalString.NilEmpty.string_of_uint (N.to_uint (Z.to_N z))).

Definition zeros (k : Z) : str := repeat "0"%char (Z.to_nat k).

(** [repr(x)]: positional between [1e-4] and [1e16], with an exponent of
  at least two digits outside. *)
Definition to_text (x : t) : str :=
if INF <=? x then s2l "inf"
else if x =? 0 then s2l "0.0"
else
  let (n, d) := to_frac x in
  let (c0, q0) := shortest x n d (log10_frac n d) 1 17 in
  let (c, q) := strip_zeros 20 c0 q0 in
  let ds := Z_str c in
  let nd := Z.of_nat (length ds) in
  let decpt := nd + q in
  if (-4 <? decpt) && (decpt <=? 16) then
    if decpt <=? 0 then s2l "0." ++ zeros (- decpt) ++ ds
    else if nd <=? decpt then ds ++ zeros (decpt - nd) ++ s2l ".0"
    else firstn (Z.to_nat decpt) ds ++ s2l "." ++ skipn (Z.to_nat decpt) ds
  else
    let ex := decpt - 1 in
    let mant := match ds with
                | [] => []
                | [c1] => [c1]
                | c1 :: rest => c1 :: s2l "." ++ rest
                end in
    let es := Z_str (Z.abs ex) in
    mant ++ s2l "e" ++ (if ex <? 0 then s2l "-" else s2l "+")
    ++ (if Z.abs ex <? 10 then s2l "0" else []) ++ es.

End Binary64.

#[export] Instance binary64 : PyFloat := {|
  float := Binary64.t;
  float_of := Binary64.of_text;
  fsum := Binary64.sum;
  fdiv := Binary64.div_nat;
  round1 := Binary64.round_1;
  flt := Binary64.ltb;
  fstr := Binary64.to_text
|}.

(** * Vocabulary of the properties *)

Definition all_in (k : cls) (u : str) : Prop := forallb (cls_match k) u = true.

Definition atom_lang (a : atom) (u : str) : Prop :=
  match a with
  | One k => exists c, u = [c] /\ cls_match k c = true
  | Star k => all_in k u
  | Plus k => u <> [] /\ all_in k u
  end.

Fixpoint atoms_lang (p : list atom) (u : str) : Prop :=
  match p with
  | [] => u = []
  | a :: p' => exists u1 u2, u = u1 ++ u2 /\ atom_lang a u1 /\ atoms_lang p' u2
  end.

Fixpoint matches_with (p : pattern) (u : str) (caps : list str) : Prop :=
  match p with
  | [] => u = [] /\ caps = []
  | A a :: p' =>
      exists u1 u2, u = u1 ++ u2 /\ atom_lang a u1 /\ matches_with p' u2 caps
  | G g :: p' =>
      exists u1 u2 caps', u = u1 ++ u2 /\ atoms_lang g u1
                          /\ matches_with p' u2 caps' /\ caps = u1 :: caps'
  end.

(** Tokens of the form [[digits]:], directly on the text. *)
Fixpoint skip_digits (s : str) : str :=
  match s with
  | c :: s' => if is_digit c then skip_digits s' else s
  | [] => []
  end.

Definition starts_token (s : str) : bool :=
  match s with
  | "["%char :: c :: s' =>
      is_digit c && match skip_digits s' with
                    | "]"%char :: ":"%char :: _ => true
                    | _ => false
                    end
  | _ => false
  end.

Fixpoint has_token (s : str) : bool :=
  starts_token s || match s with
                    | _ :: s' => has_token s'
                    | [] => false
                    end.

Definition token (d : str) : str := s2l "[" ++ d ++ s2l "]:".

Definition one_line (s : str) : bool :=
  forallb (fun c => negb (Ascii.eqb c newline)) s.

Definition digits (s : str) : bool := forallb is_digit s.

(** The part of [scanPid] after the leading [.*]. *)
Definition pid_tail : pattern :=
  [ A (One (Only "[")); G [Plus Digit];
    A (One (Only "]")); A (One (Only ":")); A (Star Any) ]%char.

Definition pid_is (p : str) (line : str) : bool :=
  match pid_of line with Some q => str_eqb p q | None => false end.

(** The process stream of [p]: the lines that carry its identifier. *)
Definition stream (p : str) (lines : list str) : list str :=
  filter (pid_is p) lines.

(** The identifiers of the header lines, in input order. *)
Definition headers (lines : list str) : list str :=
  flat_map (fun l => match pid_of l with
                     | Some p => if has_header l then [p] else []
                     | None => []
                     end) lines.

Definition eligible (lines : list str) (p : str) : bool :=
  in_list p (headers lines).

(** The first occurrences in a list, in order. *)
Definition first_seen (l : list str) : list str :=
  fold_left (fun acc x => if in_list x acc then acc else acc ++ [x]) l [].

Fixpoint drop_until (f : str -> bool) (l : list str) : list str :=
  match l with
  | [] => []
  | x :: l' => if f x then l else drop_until f l'
  end.

(** The stream of [p] from its first header line on, right-stripped. *)
Definition from_header (p : str) (lines : list str) : list str :=
  map rstrip (drop_until has_header (stream p lines)).

(** Every retained line, in the order the aggregation visits them. *)
Definition retained (ls : Dict.t (list str)) : list str := flat_map snd ls.

(** The Stat Rows of a list of lines. *)
Definition rows_of (lines : list str) : list stat_row :=
  flat_map (fun l => match stat_of l with Some r => [r] | None => [] end) lines.

Definition sig_is (k : str) (r : stat_row) : bool := str_eqb k (sig_of r).

Inductive field := Rank | Checks | Matches | Alerts | Ms | Ac | Am | An | Dis.

Definition group_text (f : field) (r : stat_row) : str :=
  match f with
  | Rank => g_rank r | Checks => g_checks r | Matches => g_matches r
  | Alerts => g_alerts r | Ms => g_ms r | Ac => g_ac r | Am => g_am r
  | An => g_an r | Dis => g_dis r
  end.

Section Fields.
Context {F : PyFloat}.

Definition sample_field (f : field) (s : samples) : list float :=
  match f with
  | Rank => rank s | Checks => checks s | Matches => matches s
  | Alerts => alerts s | Ms => ms s | Ac => ac s | Am => am s
  | An => an s | Dis => dis s
  end.


(** The values of one field over a list of rows, as floats. *)
Definition values (f : field) (rs : list stat_row) : list float :=
  map (fun r => float_of (group_text f r)) rs.

(** [round(sum(l)/len(l), 1)] for a non-empty [l]. *)
Definition mean1 (l : list float) : float :=
  round1 (fdiv (fsum l) (length l)).

Definition samples_of (rs : list stat_row) : samples :=
  fold_left (fun s r => add_sample r s) rs no_samples.

Definition averages_of (rs : list stat_row) : averages :=
  {| avg_rank := mean1 (values Rank rs);
     avg_checks := mean1 (values Checks rs);
     avg_matches := mean1 (values Matches rs);
     avg_alerts := mean1 (values Alerts rs);
     avg_ms := mean1 (values Ms rs);
     avg_ac := mean1 (values Ac rs);
     avg_am := mean1 (values Am rs);
     avg_an := mean1 (values An rs);
     avg_dis := mean1 (values Dis rs) |}.
End Fields.

(** The shape of both accumulation loops: under the key of each item, a
    value started from [empty] on first sight and extended with [app]. *)
Section Group.
Variables (X V : Type) (key : X -> str) (app : X -> V -> V) (empty : V).

Definition group_step (t : Dict.t V) (x : X) : Dict.t V :=
  Dict.upd (key x) (app x)
           (if Dict.mem (key x) t then t else Dict.set (key x) empty t).

Definition collect (xs : list X) : V := fold_left (fun v x => app x v) xs empty.

Definition key_is (k : str) (x : X) : bool := str_eqb k (key x).

Definition grouped (xs : list X) : Dict.t V := fold_left group_step xs [].
End Group.

Section Closed.
Context {F : PyFloat}.

(** The Stat Rows the aggregation sees, for an input. *)
Definition stat_rows (lines : list str) : list stat_row :=
  rows_of (retained (logStreams (demux lines))).

(** The signatures, by first appearance among the Stat Rows. *)
Definition signatures (rs : list stat_row) : list str :=
  first_seen (map sig_of rs).

Definition avg_table (rs : list stat_row) : Dict.t averages :=
  map (fun k => (k, averages_of (filter (sig_is k) rs))) (signatures rs).
End Closed.

Inductive kind := KInt | KDec.

(** The twelve fields of a row: eight integers, three decimals, one
    integer. *)
Definition KINDS : list kind :=
  [KInt; KInt; KInt; KInt; KInt; KInt; KInt; KInt; KDec; KDec; KDec; KInt].

Definition field_pat (k : kind) : item :=
  match k with KInt => int_group | KDec => dec_group end.

Definition fields_pat (ks : list kind) : pattern :=
  flat_map (fun k => [sp; field_pat k]) ks.

Definition stat_head : list atom :=
  [ Star Any; One (Only "["%char); Plus Digit;
    One (Only "]"%char); One (Only ":"%char) ].

Definition spaces (s : str) : bool := forallb (Ascii.eqb " "%char) s.

Definition is_int (f : str) : Prop := f <> [] /\ digits f = true.

Definition field_ok (k : kind) (f : str) : Prop :=
  match k with
  | KInt => is_int f
  | KDec => exists i fr, f = i ++ s2l "." ++ fr /\ is_int i /\ is_int fr
  end.

(** [u] is the fields [fs], each after one or more spaces. *)
Fixpoint fields_text (ks : list kind) (u : str) (fs : list str) : Prop :=
  match ks, fs with
  | [], [] => u = []
  | k :: ks', f :: fs' =>
      exists s u', u = s ++ f ++ u' /\ s <> [] /\ spaces s = true
                   /\ field_ok k f /\ fields_text ks' u' fs'
  | _, _ => False
  end.

(** The text [scanStatLine] consumes: anything on one line, an identifier
    token, then the twelve fields [fs]. *)
Definition stat_text (u : str) (fs : list str) : Prop :=
  exists pre d body,
    u = pre ++ token d ++ body /\ one_line pre = true
    /\ d <> [] /\ digits d = true /\ fields_text KINDS body fs.

Definition row_fields (r : stat_row) : list str :=
  [ g_rank r; g_sid r; g_gid r; g_rev r; g_checks r; g_matches r;
    g_alerts r; g_ms r; g_ac r; g_am r; g_an r; g_dis r ].

Section ReportText.
Context {F : PyFloat}.

(** The line [print_row] writes for an entry whose key has three parts. *)
Definition row_text (kv : str * averages) : str :=
  match split_on ":"%char (fst kv) with
  | [gid; sid; rev] => format OUTPUT_FORMAT (row_cells gid sid rev (snd kv))
  | _ => []
  end.

(** The four lines above the data rows. *)
Definition head_lines (n : nat) : list str :=
  [ s2l " " ++ OUTPUT_HEADER n;
    s2l " " ++ repeat "="%char (length (OUTPUT_HEADER n));
    format OUTPUT_FORMAT OUTPUT_HEADINGS;
    format OUTPUT_FORMAT
           (map (fun hdr => repeat "="%char (length hdr)) OUTPUT_HEADINGS) ].

End ReportText.

Definition no_colon (a : str) : bool :=
  forallb (fun c => negb (Ascii.eqb c ":"%char)) a.

Section KeyOrder.
Context {F : PyFloat}.
Variable T : Type.
Variable key : T -> float.

End KeyOrder.

(** The identifiers the lines carry, one per line that has one. *)
Definition pids (lines : list str) : list str :=
  flat_map (fun l => match pid_of l with Some p => [p] | None => [] end) lines.

Definition lines_eqb (a b : list str) : bool :=
  if list_eq_dec (list_eq_dec ascii_dec) a b then true else false.

(** Two inputs hold every process stream in the same internal order. *)
Definition same_streams (l1 l2 : list str) : bool :=
  forallb (fun p => lines_eqb (stream p l1) (stream p l2)) (pids l1 ++ pids l2).

(** The input without the lines of [p]. *)
Definition without (p : str) (lines : list str) : list str :=
  filter (fun l => negb (pid_is p l)) lines.

(** [2^k] for a positive [k] and [1] otherwise: the factors of
    [Binary64.scale]. *)
Definition pw (k : Z) : Z := (2 ^ Z.max 0 k)%Z.

(** ** The spec's own readings, for comparison with the code *)

(** The spec's retained sequence: every line bearing the identifier, from
    its first occurrence in the input on (right-stripped, as stored). *)
Definition spec_retained (p : str) (lines : list str) : list str :=
  map rstrip (stream p lines).

(** The text after the rightmost identifier token of a line. *)
Fixpoint after_token (s : str) : option str :=
  match s with
  | [] => None
  | c :: s' =>
      match after_token s' with
      | Some r => Some r
      | None => if starts_token s then Some (skipn 2 (skip_digits s'))
                else None
      end
  end.

(** The whitespace-separated fields of a text. *)
Fixpoint words_acc (s : str) (cur : str) : list str :=
  match s with
  | [] => match cur with [] => [] | _ => [cur] end
  | c :: s' =>
      if is_space c then
        match cur with
        | [] => words_acc s' []
        | _ => cur :: words_acc s' []
        end
      else words_acc s' (cur ++ [c])
  end.

Definition words (s : str) : list str := words_acc s [].

Definition spec_int (f : str) : bool :=
  match f with [] => false | _ => digits f end.

Definition spec_dec (f : str) : bool :=
  match split_on "."%char f with
  | [i; fr] => spec_int i && spec_int fr
  | _ => false
  end.

Fixpoint spec_fields (ks : list kind) (fs : list str) : bool :=
  match ks, fs with
  | [], [] => true
  | k :: ks', f :: fs' =>
      match k with KInt => spec_int f | KDec => spec_dec f end
      && spec_fields ks' fs'
  | _, _ => false
  end.

(** The spec's Stat Row test: after the bracketed identifier the line
    consists of exactly twelve whitespace-separated fields of the fixed
    shapes. *)
Definition spec_stat_row (line : str) : bool :=
  match after_token line with
  | Some body => spec_fields KINDS (words body)
  | None => false
  end.

(** ** Sample inputs *)

Module Sample.

Definition header_101 : str :=
s2l "Nov  4 10:00:01 ids snort[101]: Rule Profile Statistics (all rules)".
Definition header_202 : str :=
s2l "Nov  4 10:00:01 ids snort[202]: Rule Profile Statistics (all rules)".
Definition row_101 : str :=
s2l "Nov  4 10:00:01 ids snort[101]:    1   100   1   2   10   5   1   50   5.0   10.0   5.25   0".
Definition row_202 : str :=
s2l "Nov  4 10:00:01 ids snort[202]:    1   200   1   2   20   15   3   150   7.5   10.0   6.5   0".
Definition row_303 : str :=
s2l "Nov  4 10:00:01 ids snort[303]:    2   300   1   1   7   7   7   70   1.0   1.0   1.0   0".

(** Two processes, one after the other, and the same with the second
  process first. *)
Definition first_101 : list str := [header_101; row_101; header_202; row_202].
Definition first_202 : list str := [header_202; row_202; header_101; row_101].

(** The two processes interleaved, the headers in the order of
  [first_101]. *)
Definition interleaved : list str :=
[header_101; header_202; row_202; row_101].

(** A third process that prints a row but never the header. *)
Definition with_303 : list str :=
[header_101; row_303; row_101; header_202; row_202].

(** A line of process 7 before its header line. *)
Definition early_line : list str :=
map s2l [ "snort[7]: starting";
          "snort[7]: Rule Profile Statistics (all rules)";
          "snort[7]: done" ]%string.

(** Thirteen fields after the identifier. *)
Definition thirteen : str := s2l "snort[1]: 1 2 3 4 5 6 7 8 9.0 1.0 2.0 0 99".

(** No file can be opened and standard input is empty. *)
Definition no_files : env :=
{| open_file := fun _ => None; stdin_lines := [] |}.

Definition only_stdin (lines : list str) : env :=
{| open_file := fun _ => None; stdin_lines := lines |}.

End Sample.

(** ** The mean in exact arithmetic, as the spec words it *)






(** Three processes that each report the same rule once. *)
Module Means.






End Means.

(** * Further vocabulary *)

(** [line] carries an identifier: [if (m)] at line 91. *)
Definition has_pid (line : str) : bool :=
  match pid_of line with Some _ => true | None => false end.

(** Further concrete inputs. *)
Module More.

(** The Stat Row of [Sample.row_101]. *)
Definition parsed_101 : stat_row :=
{| g_rank := s2l "1"; g_sid := s2l "100"; g_gid := s2l "1";
   g_rev := s2l "2"; g_checks := s2l "10"; g_matches := s2l "5";
   g_alerts := s2l "1"; g_ms := s2l "50"; g_ac := s2l "5.0";
   g_am := s2l "10.0"; g_an := s2l "5.25"; g_dis := s2l "0" |}.

(** A header line and a line with trailing blanks, of process 7. *)
Definition padded : list str :=
map s2l [ "a[7]: Rule Profile Statistics (all rules)  ";
          "a[7]: x   " ]%string.

End More.

(** The header literal as text. *)
Definition HEADER_TEXT : str := s2l "Rule Profile Statistics (all rules)".

(** A line with its terminator, as iterating over a file yields it. *)
Definition terminated (l : str) : str := l ++ [newline].

Section Ties.
Context {F : PyFloat}.
Variable T : Type.
Variable key : T -> float.

(** The key of [x] is tied with [v]: neither is below the other. *)
Definition tied (v : float) (x : T) : bool :=
  negb (flt (key x) v) && negb (flt v (key x)).
End Ties.

(** The widths of the twelve columns of [OUTPUT_FORMAT]. *)
Definition WIDTHS : list nat := [6; 8; 3; 3; 11; 11; 9; 19; 9; 9; 12; 9].

(** A format of one blank and one right-aligned field per width. *)
Definition fields_fmt (ws : list nat) : list piece :=
  flat_map (fun w => [Text (s2l " "); Field w]) ws.

(** * Lemmas *)

Section RepFacts.
Variable R : Type.
Implicit Types (cont : str -> option R).

Lemma rep_some_app k a s cont r :
  all_in k a -> rep k s cont = Some r -> rep k (a ++ s) cont = Some r.
Proof.
  unfold all_in. induction a as [|c a IH]; simpl; intros Ha Hr; auto.
  apply andb_true_iff in Ha as [Hc Ha]. rewrite Hc, (IH Ha Hr). reflexivity.
Qed.

Lemma rep_sound k s cont r :
  rep k s cont = Some r ->
  exists u s', s = u ++ s' /\ all_in k u /\ cont s' = Some r.
Proof.
  induction s as [|c s IH]; simpl; intros H.
  - exists [], []. repeat split; auto.
  - destruct (cls_match k c) eqn:Hc.
    + destruct (rep k s cont) as [r'|] eqn:Hr.
      * destruct (IH H) as (u & s' & -> & Hu & Hs').
        exists (c :: u), s'. repeat split; auto.
        unfold all_in in *. simpl. now rewrite Hc.
      * exists [], (c :: s). repeat split; auto.
    + exists [], (c :: s). repeat split; auto.
Qed.

Lemma rep_complete k a s cont :
  all_in k a -> cont s <> None -> rep k (a ++ s) cont <> None.
Proof.
  intros Ha Hs. destruct (cont s) as [r|] eqn:E; [|congruence].
  assert (exists r', rep k s cont = Some r') as [r' Hr'].
  { destruct s as [|c s']; simpl; [eauto|].
    destruct (cls_match k c); [|eauto].
    destruct (rep k s' cont); eauto. }
  erewrite rep_some_app by eassumption. discriminate.
Qed.

(** When the continuation fails at every later position, the repetition
    takes nothing. *)
Lemma rep_first k s cont :
  (forall u s', u <> [] -> s = u ++ s' -> cont s' = None) ->
  rep k s cont = cont s.
Proof.
  induction s as [|c s IH]; simpl; intros H; auto.
  destruct (cls_match k c); auto.
  rewrite IH.
  - rewrite (H [c] s); auto. discriminate.
  - intros u s' Hu ->. apply (H (c :: u) s'); auto. discriminate.
Qed.

Lemma rep_const k s (r : R) : rep k s (fun _ => Some r) = Some r.
Proof.
  induction s as [|c s IH]; simpl; auto.
  destruct (cls_match k c); auto. now rewrite IH.
Qed.

Lemma run_atom_sound a s cont r :
  run_atom a s cont = Some r ->
  exists u s', s = u ++ s' /\ atom_lang a u /\ cont s' = Some r.
Proof.
  destruct a as [k|k|k]; simpl.
  - destruct s as [|c s]; [discriminate|].
    destruct (cls_match k c) eqn:Hc; [|discriminate]. intros H.
    exists [c], s. repeat split; eauto.
  - apply rep_sound.
  - destruct s as [|c s]; [discriminate|].
    destruct (cls_match k c) eqn:Hc; [|discriminate]. intros H.
    apply rep_sound in H; destruct H as (u & s' & -> & Hu & Hs').
    exists (c :: u), s'. repeat split; auto; try discriminate.
    unfold all_in in *. simpl. now rewrite Hc.
Qed.

Lemma run_atom_complete a u s cont :
  atom_lang a u -> cont s <> None -> run_atom a (u ++ s) cont <> None.
Proof.
  destruct a as [k|k|k]; simpl.
  - intros (c & -> & Hc) Hs. simpl. now rewrite Hc.
  - apply rep_complete.
  - intros [Hne Hu] Hs. destruct u as [|c u]; [congruence|].
    unfold all_in in Hu. simpl in Hu. apply andb_true_iff in Hu as [Hc Hu].
    simpl. rewrite Hc. now apply rep_complete.
Qed.

Lemma run_atoms_sound p : forall s cont r,
  run_atoms p s cont = Some r ->
  exists u s', s = u ++ s' /\ atoms_lang p u /\ cont s' = Some r.
Proof.
  induction p as [|a p IH]; simpl; intros s cont r H.
  - exists [], s. auto.
  - apply run_atom_sound in H; destruct H as (u1 & s1 & -> & Hu1 & H1).
    apply IH in H1; destruct H1 as (u2 & s2 & -> & Hu2 & H2).
    exists (u1 ++ u2), s2. rewrite app_assoc. repeat split; auto.
    exists u1, u2. auto.
Qed.

Lemma run_atoms_complete p : forall u s cont,
  atoms_lang p u -> cont s <> None -> run_atoms p (u ++ s) cont <> None.
Proof.
  induction p as [|a p IH]; simpl; intros u s cont Hu Hs.
  - now subst.
  - destruct Hu as (u1 & u2 & -> & H1 & H2). rewrite <- app_assoc.
    apply run_atom_complete; auto.
Qed.
End RepFacts.

Lemma consumed_app u s : consumed (u ++ s) s = u.
Proof.
  unfold consumed. rewrite length_app.
  replace (length u + length s - length s) with (length u + 0) by lia.
  rewrite firstn_app_2. simpl. apply app_nil_r.
Qed.

Lemma run_sound p : forall s caps0 r,
  run p s caps0 = Some r ->
  exists u s' caps, s = u ++ s' /\ matches_with p u caps /\ r = caps0 ++ caps.
Proof.
  induction p as [|[a|g] p IH]; simpl; intros s caps0 r H.
  - injection H as <-. exists [], s, []. rewrite app_nil_r. auto.
  - apply run_atom_sound in H; destruct H as (u1 & s1 & -> & Hu1 & H1).
    apply IH in H1; destruct H1 as (u2 & s2 & caps & -> & Hu2 & ->).
    exists (u1 ++ u2), s2, caps. rewrite app_assoc. repeat split; auto.
    exists u1, u2. auto.
  - apply run_atoms_sound in H; destruct H as (u1 & s1 & -> & Hu1 & H1).
    apply IH in H1; destruct H1 as (u2 & s2 & caps & -> & Hu2 & ->).
    rewrite consumed_app.
    exists (u1 ++ u2), s2, (u1 :: caps). rewrite !app_assoc.
    repeat split; auto.
    + exists u1, u2, caps. auto.
    + now rewrite <- app_assoc.
Qed.

Lemma run_complete p : forall u s caps caps0,
  matches_with p u caps -> run p (u ++ s) caps0 <> None.
Proof.
  induction p as [|[a|g] p IH]; simpl; intros u s caps caps0 H.
  - discriminate.
  - destruct H as (u1 & u2 & -> & H1 & H2). rewrite <- app_assoc.
    apply run_atom_complete; eauto.
  - destruct H as (u1 & u2 & caps' & -> & H1 & H2 & ->). rewrite <- app_assoc.
    apply run_atoms_complete; eauto.
Qed.

Lemma skip_digits_app d s :
  digits d = true -> skip_digits (d ++ s) = skip_digits s.
Proof.
  unfold digits. induction d as [|c d IH]; simpl; auto.
  intros H. apply andb_true_iff in H as [Hc Hd]. now rewrite Hc, IH.
Qed.

Lemma pid_tail_token s r :
  run pid_tail s [] = Some r -> starts_token s = true.
Proof.
  intros H. apply run_sound in H.
  destruct H as (u & s' & caps & -> & H & _). simpl in H.
  destruct H as (u1 & u2 & -> & (c1 & -> & Hc1) & H).
  destruct H as (d & u3 & caps' & -> & Hd & H & _).
  destruct Hd as (d1 & d2 & -> & [Hne Hd1] & ->). rewrite app_nil_r.
  destruct H as (u4 & u5 & -> & (c4 & -> & Hc4) & H).
  destruct H as (u6 & u7 & -> & (c6 & -> & Hc6) & H).
  simpl in *. apply Ascii.eqb_eq in Hc1, Hc4, Hc6. subst.
  destruct d1 as [|c d1]; [congruence|]. simpl.
  unfold all_in in Hd1. simpl in Hd1. apply andb_true_iff in Hd1 as [Hc Hd1].
  rewrite Hc. simpl. rewrite <- app_assoc. rewrite skip_digits_app by exact Hd1.
  reflexivity.
Qed.

Lemma pid_tail_fail s : starts_token s = false -> run pid_tail s [] = None.
Proof.
  intros H. destruct (run pid_tail s []) eqn:E; auto.
  apply pid_tail_token in E. congruence.
Qed.

Lemma pid_tail_at d b :
  d <> [] -> digits d = true ->
  run pid_tail (token d ++ b) [] = Some [d].
Proof.
  intros Hne Hd. destruct d as [|c d]; [congruence|].
  unfold digits in Hd. simpl in Hd. apply andb_true_iff in Hd as [Hc Hd].
  unfold token. simpl. rewrite Hc. rewrite <- !app_assoc.
  erewrite rep_some_app; [reflexivity | exact Hd |].
  simpl. rewrite rep_const. f_equal. f_equal.
  change (c :: d ++ "]"%char :: ":"%char :: b)
    with ((c :: d) ++ "]"%char :: ":"%char :: b).
  change ("]"%char :: ":"%char :: b) with (s2l "]:" ++ b) at 2.
  apply consumed_app.
Qed.

Lemma has_token_suffix u s :
  has_token (u ++ s) = false -> starts_token s = false.
Proof.
  induction u as [|c u IH]; simpl; intros H.
  - destruct s as [|c s]; [reflexivity|].
    simpl has_token in H. apply orb_false_iff in H. tauto.
  - apply orb_false_iff in H as [_ H]. auto.
Qed.

Lemma starts_token_head s : starts_token s = true -> exists s', s = "["%char :: s'.
Proof.
  destruct s as [|c s]; simpl; [discriminate|].
  destruct c as [[] [] [] [] [] [] [] []]; try discriminate. eauto.
Qed.

Lemma later_in_token d b u s :
  digits d = true -> has_token b = false ->
  u <> [] -> token d ++ b = u ++ s -> starts_token s = false.
Proof.
  intros Hd Hb Hu E. destruct u as [|c u]; [congruence|].
  unfold token in E. simpl in E. injection E as _ E.
  rewrite <- app_assoc in E. simpl in E. symmetry in E.
  apply app_eq_app in E. destruct E as (l & [[-> E] | [-> E]]).
  - (* the suffix starts at or after the closing bracket *)
    destruct l as [|x l]; [simpl in E; subst s; reflexivity|].
    simpl in E. injection E as _ E.
    destruct l as [|y l]; [simpl in E; subst s; reflexivity|].
    simpl in E. injection E as _ E. subst b.
    apply has_token_suffix in Hb. exact Hb.
  - (* the suffix starts among the digits *)
    subst s. destruct l as [|x l]; [reflexivity|].
    destruct (starts_token _) eqn:T; auto.
    apply starts_token_head in T. destruct T as [s' T]. simpl in T.
    injection T as -> _. unfold digits in Hd. rewrite forallb_app in Hd.
    simpl in Hd. rewrite andb_false_r in Hd. discriminate.
Qed.

Lemma scanPid_last_token a d b :
  one_line a = true -> d <> [] -> digits d = true -> has_token b = false ->
  rmatch scanPid (a ++ token d ++ b) = Some [d].
Proof.
  intros Ha Hne Hd Hb. unfold rmatch, scanPid.
  change (run (A (Star Any) :: ?p) ?s []) with (rep Any s (fun s' => run p s' [])).
  fold pid_tail.
  apply rep_some_app; [exact Ha|].
  rewrite rep_first.
  - now apply pid_tail_at.
  - intros u s' Hu E. apply pid_tail_fail. eapply later_in_token; eauto.
Qed.

Theorem pid_of_last_token a d b :
  one_line a = true -> d <> [] -> digits d = true -> has_token b = false ->
  pid_of (a ++ token d ++ b) = Some d.
Proof.
  intros Ha Hne Hd Hb. unfold pid_of.
  now rewrite scanPid_last_token.
Qed.

Lemma str_eqb_eq a b : str_eqb a b = true <-> a = b.
Proof. unfold str_eqb. destruct (list_eq_dec ascii_dec a b); split; congruence. Qed.

Lemma str_eqb_refl a : str_eqb a a = true.
Proof. now apply str_eqb_eq. Qed.

Lemma str_eqb_neq a b : str_eqb a b = false <-> a <> b.
Proof. unfold str_eqb. destruct (list_eq_dec ascii_dec a b); split; congruence. Qed.

Lemma str_eqb_sym a b : str_eqb a b = str_eqb b a.
Proof.
  destruct (str_eqb b a) eqn:E.
  - apply str_eqb_eq in E. subst. apply str_eqb_refl.
  - apply str_eqb_neq. apply str_eqb_neq in E. congruence.
Qed.

Lemma in_list_In x l : in_list x l = true <-> In x l.
Proof.
  unfold in_list. rewrite existsb_exists. split.
  - intros (y & Hy & E). apply str_eqb_eq in E. now subst.
  - intros H. exists x. split; auto. apply str_eqb_refl.
Qed.

Lemma in_list_app x l1 l2 : in_list x (l1 ++ l2) = in_list x l1 || in_list x l2.
Proof. apply existsb_app. Qed.

Module DictFacts.
Section Facts.
Variable V : Type.
Implicit Types (d : Dict.t V) (k : str).

Lemma mem_get k d : Dict.mem k d = true <-> Dict.get k d <> None.
Proof. unfold Dict.mem. destruct (Dict.get k d); split; congruence. Qed.

Lemma mem_keys k d : Dict.mem k d = in_list k (Dict.keys d).
Proof.
unfold Dict.mem. induction d as [|[k' v] d IH]; simpl; auto.
destruct (str_eqb k k'); auto.
Qed.

Lemma get_set_same k v d : Dict.get k (Dict.set k v d) = Some v.
Proof.
induction d as [|[k' v'] d IH]; simpl.
- now rewrite str_eqb_refl.
- destruct (str_eqb k k') eqn:E; simpl; now rewrite E.
Qed.

Lemma get_set_other k k' v d :
k <> k' -> Dict.get k (Dict.set k' v d) = Dict.get k d.
Proof.
intros N. apply str_eqb_neq in N.
induction d as [|[k2 v2] d IH]; simpl.
- now rewrite N.
- destruct (str_eqb k' k2) eqn:E; simpl.
  + apply str_eqb_eq in E. subst k2. now rewrite N.
  + now rewrite IH.
Qed.

Lemma get_upd_same k f d :
Dict.get k (Dict.upd k f d) = option_map f (Dict.get k d).
Proof.
induction d as [|[k' v'] d IH]; simpl; auto.
destruct (str_eqb k k') eqn:E; simpl; now rewrite E.
Qed.

Lemma get_upd_other k k' f d :
k <> k' -> Dict.get k (Dict.upd k' f d) = Dict.get k d.
Proof.
intros N. induction d as [|[k2 v2] d IH]; simpl; auto.
destruct (str_eqb k' k2) eqn:E; simpl.
- apply str_eqb_eq in E. subst k2.
  apply str_eqb_neq in N. now rewrite N.
- now rewrite IH.
Qed.

Lemma keys_upd k f d : Dict.keys (Dict.upd k f d) = Dict.keys d.
Proof.
unfold Dict.keys. induction d as [|[k' v'] d IH]; simpl; auto.
destruct (str_eqb k k'); simpl; congruence.
Qed.

Lemma keys_set k v d :
Dict.keys (Dict.set k v d)
= if Dict.mem k d then Dict.keys d else Dict.keys d ++ [k].
Proof.
unfold Dict.keys, Dict.mem.
induction d as [|[k' v'] d IH]; simpl; auto.
destruct (str_eqb k k') eqn:E; simpl; auto.
rewrite IH. destruct (Dict.get k d); reflexivity.
Qed.

(** Two dictionaries with the same keys in the same order and the same
  value under every key are the same dictionary. *)
Lemma ext d1 : forall d2,
NoDup (Dict.keys d1) -> Dict.keys d1 = Dict.keys d2 ->
(forall k, Dict.get k d1 = Dict.get k d2) -> d1 = d2.
Proof.
induction d1 as [|[k v] d1 IH]; intros [|[k2 v2] d2] ND K G;
  try discriminate; auto.
simpl in K. injection K as <- K. inversion ND as [|? ? Hk ND']; subst.
pose proof (G k) as Gk. simpl in Gk. rewrite str_eqb_refl in Gk.
injection Gk as <-. f_equal. apply IH; auto.
intros k'. pose proof (G k') as G'. simpl in G'.
destruct (str_eqb k' k) eqn:E; auto.
apply str_eqb_eq in E. subst k'.
assert (N1 : Dict.get k d1 = None).
{ destruct (Dict.get k d1) eqn:X; auto. exfalso. apply Hk.
  apply in_list_In. rewrite <- mem_keys. apply mem_get. congruence. }
assert (N2 : Dict.get k d2 = None).
{ destruct (Dict.get k d2) eqn:X; auto. exfalso. apply Hk. rewrite K.
  apply in_list_In. rewrite <- mem_keys. apply mem_get. congruence. }
congruence.
Qed.
End Facts.
End DictFacts.

Lemma first_seen_snoc l x :
  first_seen (l ++ [x]) = if in_list x (first_seen l) then first_seen l
                          else first_seen l ++ [x].
Proof. unfold first_seen. rewrite fold_left_app. reflexivity. Qed.

Lemma in_first_seen x l : in_list x (first_seen l) = in_list x l.
Proof.
  induction l as [|y l IH] using rev_ind; auto.
  rewrite first_seen_snoc, in_list_app. simpl. rewrite orb_false_r.
  destruct (in_list y (first_seen l)) eqn:E.
  - rewrite IH. destruct (str_eqb x y) eqn:X; [|now rewrite orb_false_r].
    apply str_eqb_eq in X. subst. rewrite <- IH, E. reflexivity.
  - rewrite in_list_app, IH. simpl. now rewrite orb_false_r.
Qed.

Lemma first_seen_NoDup l : NoDup (first_seen l).
Proof.
  induction l as [|y l IH] using rev_ind; [constructor|].
  rewrite first_seen_snoc. destruct (in_list y (first_seen l)) eqn:E; auto.
  apply NoDup_app; auto.
  - repeat constructor. simpl. tauto.
  - intros a Ha [<-|[]]. apply in_list_In in Ha. congruence.
Qed.

Lemma demux_snoc lines l : demux (lines ++ [l]) = demux_step (demux lines) l.
Proof. unfold demux. now rewrite fold_left_app. Qed.

Lemma headers_snoc lines l :
  headers (lines ++ [l])
  = headers lines ++ match pid_of l with
                     | Some p => if has_header l then [p] else []
                     | None => []
                     end.
Proof. unfold headers. rewrite flat_map_app. simpl. now rewrite app_nil_r. Qed.

Lemma stream_snoc p lines l :
  stream p (lines ++ [l]) = stream p lines ++ (if pid_is p l then [l] else []).
Proof. unfold stream. rewrite filter_app. reflexivity. Qed.

Lemma drop_until_app f x y :
  drop_until f (x ++ y)
  = if existsb f x then drop_until f x ++ y else drop_until f y.
Proof.
  induction x as [|a x IH]; simpl; auto.
  destruct (f a); simpl; auto.
Qed.

Lemma eligible_stream lines p :
  eligible lines p = existsb has_header (stream p lines).
Proof.
  unfold eligible, headers, stream, pid_is.
  induction lines as [|l lines IH]; simpl; auto.
  rewrite in_list_app, IH.
  destruct (pid_of l) as [q|]; simpl; auto.
  destruct (str_eqb p q) eqn:E; simpl.
  - destruct (has_header l); simpl; auto. now rewrite E.
  - destruct (has_header l); simpl; auto. now rewrite E.
Qed.

Lemma logStreamList_demux lines : logStreamList (demux lines) = headers lines.
Proof.
  induction lines as [|l lines IH] using rev_ind; auto.
  rewrite demux_snoc, headers_snoc. unfold demux_step.
  destruct (pid_of l) as [q|]; [|now rewrite app_nil_r].
  rewrite IH.
  destruct (has_header l); [|rewrite app_nil_r];
    match goal with |- context [if ?b then _ else _] => destruct b end;
    reflexivity.
Qed.

(** What [logStreams] holds under each identifier. *)
Lemma logStreams_get lines : forall p,
  Dict.get p (logStreams (demux lines))
  = if eligible lines p then Some (from_header p lines) else None.
Proof.
  induction lines as [|l lines IH] using rev_ind; intros p; auto.
  rewrite demux_snoc. unfold demux_step.
  assert (El : eligible (lines ++ [l]) p
               = eligible lines p
                 || match pid_of l with
                    | Some q => has_header l && str_eqb p q
                    | None => false
                    end).
  { unfold eligible. rewrite headers_snoc, in_list_app.
    destruct (pid_of l); simpl; [|reflexivity].
    destruct (has_header l); simpl; auto. now rewrite orb_false_r. }
  assert (Fr : from_header p (lines ++ [l])
               = if pid_is p l
                 then if eligible lines p then from_header p lines ++ [rstrip l]
                      else if has_header l then [rstrip l] else []
                 else from_header p lines).
  { unfold from_header. rewrite stream_snoc.
    destruct (pid_is p l); [|now rewrite app_nil_r].
    rewrite drop_until_app, <- eligible_stream.
    destruct (eligible lines p); [now rewrite map_app|].
    simpl. destruct (has_header l); reflexivity. }
  rewrite El, Fr. unfold pid_is. clear El Fr.
  destruct (pid_of l) as [q|] eqn:Pl; [|rewrite orb_false_r; apply IH].
  rewrite logStreamList_demux.
  assert (In' : in_list q (if has_header l then headers lines ++ [q]
                          else headers lines)
               = eligible lines q || has_header l).
  { unfold eligible. destruct (has_header l).
    - rewrite in_list_app. simpl. rewrite str_eqb_refl. now rewrite !orb_true_r.
    - now rewrite orb_false_r. }
  rewrite In'. clear In'.
  destruct (str_eqb p q) eqn:E.
  - apply str_eqb_eq in E. subst q. rewrite andb_true_r.
    destruct (eligible lines p) eqn:Ep; simpl.
    + assert (M : Dict.mem p (logStreams (demux lines)) = true).
      { apply DictFacts.mem_get. rewrite IH, Ep. discriminate. }
      rewrite M. rewrite DictFacts.get_upd_same, IH, Ep. reflexivity.
    + assert (M : Dict.mem p (logStreams (demux lines)) = false).
      { unfold Dict.mem. now rewrite IH, Ep. }
      destruct (has_header l); simpl.
      * rewrite M, DictFacts.get_upd_same, DictFacts.get_set_same. reflexivity.
      * now rewrite IH, Ep.
  - rewrite andb_false_r, orb_false_r.
    assert (N : p <> q) by now apply str_eqb_neq.
    destruct (eligible lines q || has_header l); simpl; [|apply IH].
    rewrite DictFacts.get_upd_other by exact N.
    destruct (Dict.mem q (logStreams (demux lines))); [apply IH|].
    rewrite DictFacts.get_set_other by exact N. apply IH.
Qed.

(** The keys of [logStreams], in order: the identifiers by first header. *)
Lemma logStreams_keys lines :
  Dict.keys (logStreams (demux lines)) = first_seen (headers lines).
Proof.
  induction lines as [|l lines IH] using rev_ind; auto.
  rewrite demux_snoc, headers_snoc. unfold demux_step.
  destruct (pid_of l) as [q|] eqn:Pl; [|now rewrite app_nil_r].
  rewrite logStreamList_demux.
  assert (M : Dict.mem q (logStreams (demux lines)) = eligible lines q).
  { unfold Dict.mem. rewrite logStreams_get. now destruct (eligible lines q). }
  destruct (has_header l) eqn:Hh.
  - rewrite in_list_app. simpl. rewrite str_eqb_refl, orb_true_r. simpl.
    rewrite DictFacts.keys_upd, first_seen_snoc, in_first_seen, M.
    fold (eligible lines q).
    destruct (eligible lines q) eqn:Eq; auto.
    rewrite DictFacts.keys_set, M, IH. reflexivity.
  - rewrite app_nil_r. fold (eligible lines q).
    destruct (eligible lines q) eqn:Eq; simpl; auto.
    rewrite M, DictFacts.keys_upd. exact IH.
Qed.

Lemma logStreams_NoDup lines : NoDup (Dict.keys (logStreams (demux lines))).
Proof. rewrite logStreams_keys. apply first_seen_NoDup. Qed.

Lemma filter_none (T : Type) (f : T -> bool) l :
  (forall y, In y l -> f y = false) -> filter f l = [].
Proof.
  induction l as [|a l IH]; simpl; intros H; auto.
  rewrite (H a) by auto. auto.
Qed.

Section GroupFacts.
Variables (X V : Type) (key : X -> str) (app : X -> V -> V) (empty : V).

Lemma grouped_get xs : forall k,
  Dict.get k (grouped key app empty xs)
  = if in_list k (map key xs) then Some (collect app empty (filter (key_is key k) xs))
    else None.
Proof.
  unfold grouped.
  induction xs as [|x xs IH] using rev_ind; intros k; auto.
  rewrite fold_left_app, map_app, in_list_app, filter_app. simpl.
  unfold group_step at 1. unfold key_is at 2. rewrite orb_false_r.
  set (t := fold_left (group_step key app empty) xs []) in *.
  assert (M : Dict.mem (key x) t = in_list (key x) (map key xs)).
  { unfold Dict.mem. rewrite IH. now destruct (in_list _ _). }
  destruct (str_eqb k (key x)) eqn:E.
  - apply str_eqb_eq in E. subst k. rewrite orb_true_r.
    rewrite DictFacts.get_upd_same, M.
    destruct (in_list (key x) (map key xs)) eqn:I.
    + rewrite IH, I. simpl. unfold collect. now rewrite fold_left_app.
    + rewrite DictFacts.get_set_same. simpl. unfold collect.
      rewrite fold_left_app. simpl. f_equal. f_equal.
      assert (Fl : filter (key_is key (key x)) xs = []).
      { apply filter_none. intros y Hy. unfold key_is.
        apply str_eqb_neq. intros Ey.
        assert (in_list (key x) (map key xs) = true); [|congruence].
        apply in_list_In. rewrite Ey. now apply in_map. }
      now rewrite Fl.
  - rewrite orb_false_r, app_nil_r.
    assert (N : k <> key x) by now apply str_eqb_neq.
    rewrite DictFacts.get_upd_other by exact N.
    destruct (Dict.mem (key x) t); [apply IH|].
    rewrite DictFacts.get_set_other by exact N. apply IH.
Qed.

Lemma grouped_keys xs : Dict.keys (grouped key app empty xs) = first_seen (map key xs).
Proof.
  induction xs as [|x xs IH] using rev_ind; auto.
  unfold grouped in *. rewrite fold_left_app, map_app. simpl.
  rewrite first_seen_snoc, in_first_seen.
  assert (M : Dict.mem (key x) (fold_left (group_step key app empty) xs [])
              = in_list (key x) (map key xs)).
  { unfold Dict.mem. fold (grouped key app empty xs). rewrite grouped_get.
    now destruct (in_list _ _). }
  set (t := fold_left (group_step key app empty) xs []) in *.
  unfold group_step. rewrite DictFacts.keys_upd, <- M.
  destruct (Dict.mem (key x) t) eqn:M'; [exact IH|].
  now rewrite DictFacts.keys_set, M', IH.
Qed.

Lemma get_tabulate (g : str -> V) l k :
  Dict.get k (map (fun k => (k, g k)) l)
  = if in_list k l then Some (g k) else None.
Proof.
  induction l as [|a l IH]; simpl; auto.
  destruct (str_eqb k a) eqn:E; simpl; auto.
  apply str_eqb_eq in E. now subst.
Qed.

(** The dictionary a grouping loop builds, in closed form. *)
Lemma grouped_closed xs :
  grouped key app empty xs
  = map (fun k => (k, collect app empty (filter (key_is key k) xs)))
                   (first_seen (map key xs)).
Proof.
  apply DictFacts.ext.
  - rewrite grouped_keys. apply first_seen_NoDup.
  - rewrite grouped_keys. unfold Dict.keys. rewrite map_map. simpl.
    now rewrite map_id.
  - intros k. rewrite grouped_get, get_tabulate, in_first_seen. reflexivity.
Qed.
End GroupFacts.

Lemma fold_left_step (A B : Type) (f : A -> B -> A) x l a :
  fold_left f (x :: l) a = fold_left f l (f a x).
Proof. reflexivity. Qed.

Section TableFacts.
Context {F : PyFloat}.

Lemma fold_streams (T : Type) (step : T -> str -> T) (ls : Dict.t (list str)) :
  forall t, fold_left (fun t kv => fold_left step (snd kv) t) ls t
            = fold_left step (retained ls) t.
Proof.
  unfold retained. induction ls as [|kv ls IH]; intros t; simpl; auto.
  now rewrite fold_left_app, IH.
Qed.

Lemma rows_of_cons l lines :
  rows_of (l :: lines)
  = match stat_of l with Some r => [r] | None => [] end ++ rows_of lines.
Proof. reflexivity. Qed.

Lemma stats_step_group t l :
  stats_step t l
  = fold_left (group_step sig_of add_sample no_samples)
              (match stat_of l with Some r => [r] | None => [] end) t.
Proof.
  unfold stats_step. destruct (stat_of l); reflexivity.
Qed.

Lemma fold_stats_step lines : forall t,
  fold_left stats_step lines t
  = fold_left (group_step sig_of add_sample no_samples) (rows_of lines) t.
Proof.
  induction lines as [|l lines IH]; intros t.
  - reflexivity.
  - rewrite rows_of_cons, fold_left_app, fold_left_step, IH.
    now rewrite stats_step_group.
Qed.

Lemma statsTable_grouped ls :
  statsTable ls
  = grouped sig_of add_sample no_samples (rows_of (retained ls)).
Proof.
  unfold statsTable, grouped. now rewrite fold_streams, fold_stats_step.
Qed.

Lemma samples_of_snoc rs r :
  samples_of (rs ++ [r]) = add_sample r (samples_of rs).
Proof. unfold samples_of. now rewrite fold_left_app. Qed.

Lemma sample_field_values f rs : sample_field f (samples_of rs) = values f rs.
Proof.
  induction rs as [|r rs IH] using rev_ind; [now destruct f|].
  rewrite samples_of_snoc. unfold values in *. rewrite map_app. simpl.
  rewrite <- IH. now destruct f.
Qed.

Lemma round_mean_values f rs :
  rs <> [] -> round_mean (values f rs) = inl (mean1 (values f rs)).
Proof.
  intros H. unfold round_mean, mean1.
  destruct (length (values f rs)) eqn:E; auto.
  unfold values in E. rewrite length_map in E.
  destruct rs; [congruence|discriminate].
Qed.

Lemma average_samples_of rs :
  rs <> [] -> average (samples_of rs) = inl (averages_of rs).
Proof.
  intros H. unfold average.
  pose proof (fun f => sample_field_values f rs) as V.
  pose proof (V Rank) as V1. pose proof (V Checks) as V2.
  pose proof (V Matches) as V3. pose proof (V Alerts) as V4.
  pose proof (V Ms) as V5. pose proof (V Ac) as V6.
  pose proof (V Am) as V7. pose proof (V An) as V8.
  pose proof (V Dis) as V9. cbn [sample_field] in *.
  rewrite V1, V2, V3, V4, V5, V6, V7, V8, V9.
  rewrite !round_mean_values by exact H. reflexivity.
Qed.

Lemma set_fresh (V : Type) k (v : V) d :
  ~ In k (Dict.keys d) -> Dict.set k v d = d ++ [(k, v)].
Proof.
  induction d as [|[k' v'] d IH]; simpl; intros N; auto.
  destruct (str_eqb k k') eqn:E.
  - apply str_eqb_eq in E. subst. tauto.
  - now rewrite IH by tauto.
Qed.

Lemma avg_loop_closed (g : str -> averages) todo : forall acc,
  NoDup (Dict.keys acc ++ Dict.keys todo) ->
  (forall k sT, In (k, sT) todo -> average sT = inl (g k)) ->
  avg_loop todo acc = inl (acc ++ map (fun kv => (fst kv, g (fst kv))) todo).
Proof.
  induction todo as [|[k sT] todo IH]; simpl; intros acc ND H.
  - now rewrite app_nil_r.
  - rewrite (H k sT) by auto. simpl.
    assert (Nk : ~ In k (Dict.keys acc)).
    { intros I. apply NoDup_remove_2 in ND. apply ND.
      apply in_or_app. now left. }
    rewrite set_fresh by exact Nk. rewrite IH.
    + now rewrite <- app_assoc.
    + unfold Dict.keys in *. rewrite map_app. simpl.
      now rewrite <- app_assoc.
    + intros; apply H; auto.
Qed.

Lemma in_signatures k rs :
  In k (signatures rs) -> filter (sig_is k) rs <> [].
Proof.
  unfold signatures. intros H. apply in_list_In in H.
  rewrite in_first_seen in H. apply in_list_In in H.
  apply in_map_iff in H. destruct H as (r & <- & Hr).
  intros E. assert (In r (filter (sig_is (sig_of r)) rs)).
  { apply filter_In. split; auto. apply str_eqb_refl. }
  rewrite E in H. contradiction.
Qed.

(** The averaging loop on the statistics of an input: no division by
    zero, and the table in closed form. *)
Lemma avgStatsTable_closed ls :
  avgStatsTable (statsTable ls) = inl (avg_table (rows_of (retained ls))).
Proof.
  rewrite statsTable_grouped, grouped_closed. unfold avgStatsTable.
  set (rs := rows_of (retained ls)).
  rewrite (avg_loop_closed (fun k => averages_of (filter (sig_is k) rs))).
  - simpl. unfold avg_table, signatures. rewrite map_map. reflexivity.
  - simpl. unfold Dict.keys. rewrite map_map. simpl. rewrite map_id.
    apply first_seen_NoDup.
  - intros k sT H. apply in_map_iff in H. destruct H as (k' & E & Hk).
    injection E as -> <-. apply average_samples_of.
    now apply in_signatures.
Qed.
End TableFacts.

Lemma all_in_digits u : all_in Digit u <-> digits u = true.
Proof. reflexivity. Qed.

Lemma all_in_line u : all_in Any u <-> one_line u = true.
Proof. reflexivity. Qed.

Lemma all_in_spaces u : all_in (Only " "%char) u <-> spaces u = true.
Proof.
  unfold all_in, spaces. induction u as [|c u IH]; simpl; [tauto|].
  rewrite !andb_true_iff, IH, (Ascii.eqb_sym c). tauto.
Qed.

Lemma one_is (c : ascii) u :
  atom_lang (One (Only c)) u <-> u = [c].
Proof.
  simpl. split.
  - intros (x & -> & H). apply Ascii.eqb_eq in H. now subst.
  - intros ->. exists c. split; auto. apply Ascii.eqb_refl.
Qed.

Lemma int_group_lang u : atoms_lang [Plus Digit] u <-> is_int u.
Proof.
  simpl. split.
  - intros (u1 & u2 & -> & [H1 H2] & ->). rewrite app_nil_r. now split.
  - intros [H1 H2]. exists u, []. rewrite app_nil_r. repeat split; auto.
Qed.

Lemma dec_group_lang u :
  atoms_lang [Plus Digit; One (Only "."%char); Plus Digit] u
  <-> field_ok KDec u.
Proof.
  cbn [atoms_lang field_ok]. split.
  - intros (i & u2 & -> & [H1 H2] & p & u3 & -> & Hp & fr & u4 & -> & [H3 H4] & ->).
    apply one_is in Hp. subst p. rewrite app_nil_r.
    exists i, fr. repeat split; auto.
  - intros (i & fr & -> & [H1 H2] & [H3 H4]).
    exists i, (s2l "." ++ fr). repeat split; auto.
    exists (s2l "."), fr. split; auto. split; [now apply one_is|].
    exists fr, []. rewrite app_nil_r. repeat split; auto.
Qed.

Lemma field_pat_lang k u :
  (match field_pat k with G g => atoms_lang g u | A _ => False end)
  <-> field_ok k u.
Proof.
  destruct k; cbn [field_pat int_group dec_group].
  - apply int_group_lang.
  - apply dec_group_lang.
Qed.

Lemma fields_pat_lang ks : forall u fs,
  matches_with (fields_pat ks) u fs <-> fields_text ks u fs.
Proof.
  induction ks as [|k ks IH]; intros u fs.
  - simpl. destruct fs; split; try tauto; try (intros [_ H]; discriminate).
  - change (fields_pat (k :: ks)) with (sp :: field_pat k :: fields_pat ks).
    cbn [matches_with fields_text sp]. split.
    + intros (s & u2 & -> & [Hs1 Hs2] & H).
      assert (exists g, field_pat k = G g) as [g Eg] by (destruct k; eexists; reflexivity).
      pose proof (field_pat_lang k) as L. rewrite Eg in *.
      destruct H as (f & u3 & caps' & -> & Hf & H & ->).
      exists s, u3. split; [reflexivity|]. split; [exact Hs1|].
      split; [now apply all_in_spaces|]. split; [now apply L|now apply IH].
    + destruct fs as [|f fs']; [tauto|].
      intros (s & u' & -> & Hs1 & Hs2 & Hf & H).
      exists s, (f ++ u'). split; [reflexivity|].
      split; [split; [exact Hs1|now apply all_in_spaces]|].
      assert (exists g, field_pat k = G g) as [g Eg] by (destruct k; eexists; reflexivity).
      pose proof (field_pat_lang k f) as L. rewrite Eg in *.
      exists f, u', fs'. split; [reflexivity|].
      split; [now apply L|]. split; [now apply IH|reflexivity].
Qed.

Lemma matches_atoms (g : list atom) p : forall u caps,
  matches_with (map A g ++ p) u caps
  <-> exists u1 u2, u = u1 ++ u2 /\ atoms_lang g u1 /\ matches_with p u2 caps.
Proof.
  induction g as [|a g IH]; intros u caps; simpl.
  - split.
    + intros H. exists [], u. auto.
    + intros (u1 & u2 & -> & -> & H). exact H.
  - split.
    + intros (u1 & u2 & -> & Ha & H). apply IH in H.
      destruct H as (u3 & u4 & -> & Hg & H).
      exists (u1 ++ u3), u4. rewrite app_assoc. repeat split; auto.
      exists u1, u3. auto.
    + intros (u1 & u2 & -> & (u3 & u4 & -> & Ha & Hg) & H).
      exists u3, (u4 ++ u2). rewrite app_assoc. repeat split; auto.
      apply IH. exists u4, u2. auto.
Qed.

Lemma stat_head_lang u :
  atoms_lang stat_head u
  <-> exists pre d, u = pre ++ token d /\ one_line pre = true
                    /\ d <> [] /\ digits d = true.
Proof.
  unfold stat_head. cbn [atoms_lang]. split.
  - intros (pre & u1 & -> & Hpre & b1 & u2 & -> & Hb1 & d & u3 & -> & [Hd1 Hd2]
            & b2 & u4 & -> & Hb2 & b3 & u5 & -> & Hb3 & ->).
    apply one_is in Hb1, Hb2, Hb3. subst.
    exists pre, d. repeat split; auto.
  - intros (pre & d & -> & Hpre & Hd1 & Hd2).
    exists pre, (token d). repeat split; auto.
    exists (s2l "["), (d ++ s2l "]:"). split; [reflexivity|].
    split; [now apply one_is|].
    exists d, (s2l "]:"). repeat split; auto.
    exists (s2l "]"), (s2l ":"). split; [reflexivity|].
    split; [now apply one_is|].
    exists (s2l ":"), []. repeat split; auto. now apply one_is.
Qed.

Lemma scanStatLine_split :
  scanStatLine = map A stat_head ++ fields_pat KINDS.
Proof. reflexivity. Qed.

(** The language of [scanStatLine], with its groups. *)
Lemma scanStatLine_lang u fs :
  matches_with scanStatLine u fs <-> stat_text u fs.
Proof.
  rewrite scanStatLine_split, matches_atoms. unfold stat_text. split.
  - intros (u1 & body & -> & H1 & H2).
    apply stat_head_lang in H1. destruct H1 as (pre & d & -> & Hp & Hd1 & Hd2).
    apply fields_pat_lang in H2.
    exists pre, d, body. rewrite <- app_assoc. auto.
  - intros (pre & d & body & -> & Hp & Hd1 & Hd2 & H).
    exists (pre ++ token d), body. rewrite <- app_assoc. repeat split; auto.
    + apply stat_head_lang. exists pre, d. auto.
    + now apply fields_pat_lang.
Qed.

Lemma fields_text_length ks : forall u fs,
  fields_text ks u fs -> length fs = length ks.
Proof.
  induction ks as [|k ks IH]; intros u [|f fs]; simpl; try tauto.
  intros (s & u' & _ & _ & _ & _ & H). f_equal. eauto.
Qed.

Lemma rmatch_stat_sound line caps :
  rmatch scanStatLine line = Some caps ->
  exists u rest, line = u ++ rest /\ stat_text u caps.
Proof.
  unfold rmatch. intros H. apply run_sound in H.
  destruct H as (u & rest & caps' & E1 & H & E2).
  cbn [app] in E2. subst caps line.
  exists u, rest. split; [reflexivity|].
  apply (proj1 (scanStatLine_lang u caps')). exact H.
Qed.

Lemma stat_text_length u fs : stat_text u fs -> length fs = 12.
Proof.
  intros (pre & d & body & _ & _ & _ & _ & H).
  now apply fields_text_length in H.
Qed.

Lemma twelve (fs : list str) :
  length fs = 12 ->
  exists a b c d e f g h i j k l, fs = [a; b; c; d; e; f; g; h; i; j; k; l].
Proof.
  intros H.
  do 12 (destruct fs as [|? fs]; [discriminate|]).
  destruct fs; [|discriminate]. repeat eexists.
Qed.

(** A line gives a Stat Row exactly when it starts with text of the shape
    [scanStatLine] describes; the row holds the twelve fields. *)
Lemma stat_of_sound line r :
  stat_of line = Some r ->
  exists u rest, line = u ++ rest /\ stat_text u (row_fields r).
Proof.
  unfold stat_of. destruct (rmatch scanStatLine line) as [caps|] eqn:E;
    [|discriminate].
  apply rmatch_stat_sound in E. destruct E as (u & rest & -> & H).
  pose proof (stat_text_length H) as L. apply twelve in L.
  destruct L as (a & b & c & d & e & f & g & h & i & j & k & l & ->).
  intros [= <-]. exists u, rest. split; auto.
Qed.

Lemma stat_of_complete u rest fs :
  stat_text u fs -> stat_of (u ++ rest) <> None.
Proof.
  intros H. apply scanStatLine_lang in H.
  assert (C : rmatch scanStatLine (u ++ rest) <> None).
  { unfold rmatch. eapply run_complete. exact H. }
  unfold stat_of.
  destruct (rmatch scanStatLine (u ++ rest)) as [caps|] eqn:E;
    [|exfalso; apply C; reflexivity].
  apply rmatch_stat_sound in E. destruct E as (u' & rest' & _ & H').
  pose proof (stat_text_length H') as L. apply twelve in L.
  destruct L as (a & b & c & d & e & f & g & h & i & j & k & l & ->).
  discriminate.
Qed.

(** The signature fields of a row are non-empty digit texts. *)
Lemma stat_of_sig_digits line r :
  stat_of line = Some r ->
  is_int (g_gid r) /\ is_int (g_sid r) /\ is_int (g_rev r).
Proof.
  intros H. apply stat_of_sound in H.
  destruct H as (u & rest & _ & pre & d & body & _ & _ & _ & _ & H).
  unfold row_fields, KINDS in H. cbn [fields_text] in H.
  destruct H as (? & ? & _ & _ & _ & _ & H).
  destruct H as (? & ? & _ & _ & _ & Hsid & H).
  destruct H as (? & ? & _ & _ & _ & Hgid & H).
  destruct H as (? & ? & _ & _ & _ & Hrev & H).
  cbn [field_ok] in *. auto.
Qed.

Lemma split_on_single a : no_colon a = true -> split_on ":"%char a = [a].
Proof.
  unfold no_colon. induction a as [|c a IH]; simpl; auto.
  intros H. apply andb_true_iff in H as [Hc Ha].
  apply negb_true_iff in Hc. rewrite Hc, IH; auto.
Qed.

Lemma split_on_app a b :
  no_colon a = true ->
  split_on ":"%char (a ++ ":"%char :: b) = a :: split_on ":"%char b.
Proof.
  unfold no_colon. induction a as [|c a IH]; simpl; auto.
  intros H. apply andb_true_iff in H as [Hc Ha].
  apply negb_true_iff in Hc. rewrite Hc, IH; auto.
Qed.

Lemma digit_not_colon c : is_digit c = true -> Ascii.eqb c ":"%char = false.
Proof.
  intros H. destruct (Ascii.eqb c ":"%char) eqn:E; auto.
  apply Ascii.eqb_eq in E. subst. discriminate.
Qed.

Lemma digits_no_colon a : digits a = true -> no_colon a = true.
Proof.
  unfold digits, no_colon. induction a as [|c a IH]; simpl; auto.
  intros H. apply andb_true_iff in H as [Hc Ha].
  now rewrite (digit_not_colon _ Hc), IH.
Qed.

Lemma split_sig r :
  is_int (g_gid r) -> is_int (g_sid r) -> is_int (g_rev r) ->
  split_on ":"%char (sig_of r) = [g_gid r; g_sid r; g_rev r].
Proof.
  intros [_ H1] [_ H2] [_ H3]. unfold sig_of.
  change (s2l ":") with [":"%char]. cbn [app].
  rewrite split_on_app by (apply digits_no_colon; exact H1).
  rewrite split_on_app by (apply digits_no_colon; exact H2).
  rewrite split_on_single by (apply digits_no_colon; exact H3).
  reflexivity.
Qed.

Section SortFacts.
Context {F : PyFloat} {O : PyFloatOrder F}.
Variable T : Type.
Variable key : T -> float.

Lemma insert_by_perm x l : Permutation (insert_by key x l) (x :: l).
Proof.
  induction l as [|y l IH]; simpl; auto.
  destruct (flt (key y) (key x)); auto.
  rewrite IH. apply perm_swap.
Qed.

Lemma sorted_perm l : Permutation (sorted key l) l.
Proof.
  induction l as [|x l IH]; simpl; auto.
  rewrite insert_by_perm. now constructor.
Qed.



End SortFacts.

Section Run.
Context {F : PyFloat}.

Lemma print_head_run n c :
  print_head n c
  = (inl tt, {| stdout := stdout c ++ head_lines n; stderr := stderr c |}).
Proof.
  unfold print_head, head_lines, bind, print. cbn [stdout stderr].
  now rewrite <- !app_assoc.
Qed.

Lemma print_row_ok kv gid sid rev :
  split_on ":"%char (fst kv) = [gid; sid; rev] ->
  print_row kv = print (row_text kv).
Proof. intros H. unfold print_row, row_text. now rewrite H. Qed.

Lemma for_each_rows l : forall c,
  (forall kv, In kv l ->
              exists gid sid rev, split_on ":"%char (fst kv) = [gid; sid; rev]) ->
  for_each l print_row c
  = (inl tt, {| stdout := stdout c ++ map row_text l; stderr := stderr c |}).
Proof.
  induction l as [|kv l IH]; intros c H.
  - cbn [for_each map]. unfold ret. rewrite app_nil_r. now destruct c.
  - cbn [for_each map]. unfold bind.
    destruct (H kv (or_introl eq_refl)) as (gid & sid & rev & E).
    rewrite (print_row_ok _ E). unfold print at 1.
    rewrite IH by (intros; apply H; now right).
    cbn [stdout stderr]. now rewrite <- app_assoc.
Qed.

Lemma in_rows_of r lines :
  In r (rows_of lines) <-> exists l, In l lines /\ stat_of l = Some r.
Proof.
  unfold rows_of. rewrite in_flat_map. split.
  - intros (l & Hl & H). exists l. split; auto.
    destruct (stat_of l); [|contradiction].
    destruct H as [<-|[]]. reflexivity.
  - intros (l & Hl & H). exists l. split; auto. rewrite H. now left.
Qed.

Lemma in_signatures_iff k rs :
  In k (signatures rs) <-> exists r, In r rs /\ sig_of r = k.
Proof.
  unfold signatures. rewrite <- in_list_In, in_first_seen, in_list_In.
  rewrite in_map_iff. split; intros (r & H1 & H2); exists r; auto.
Qed.

Lemma avg_table_keys rs : Dict.keys (avg_table rs) = signatures rs.
Proof.
  unfold avg_table, Dict.keys. rewrite map_map. cbn [fst]. apply map_id.
Qed.


Lemma sorted_entries_perm avg : Permutation (sorted_entries avg) avg.
Proof. apply sorted_perm. Qed.


(** Every key of the report splits back into its three parts. *)
Lemma entry_splits lines kv :
  In kv (sorted_entries (avg_table (stat_rows lines))) ->
  exists gid sid rev, split_on ":"%char (fst kv) = [gid; sid; rev].
Proof.
  intros H. apply (Permutation_in _ (sorted_entries_perm _)) in H.
  assert (K : In (fst kv) (signatures (stat_rows lines))).
  { rewrite <- avg_table_keys. unfold Dict.keys. now apply in_map. }
  apply in_signatures_iff in K. destruct K as (r & Hr & <-).
  unfold stat_rows in Hr. apply in_rows_of in Hr.
  destruct Hr as (l & _ & Hl). apply stat_of_sig_digits in Hl.
  destruct Hl as (H1 & H2 & H3).
  exists (g_gid r), (g_sid r), (g_rev r). now apply split_sig.
Qed.

(** The whole of [process]: it raises nothing and prints the four head
    lines and one line per entry, in the sorted order. *)
Lemma process_run lines c :
  process lines c
  = (inl tt,
     {| stdout := stdout c
                  ++ head_lines (length (logStreams (demux lines)))
                  ++ map row_text
                       (sorted_entries (avg_table (stat_rows lines)));
        stderr := stderr c |}).
Proof.
  unfold process. rewrite avgStatsTable_closed.
  unfold lift, bind at 1, ret. unfold bind.
  rewrite print_head_run.
  fold (stat_rows lines).
  rewrite for_each_rows by (intros kv; apply entry_splits).
  cbn [stdout stderr]. now rewrite <- app_assoc.
Qed.
End Run.

Lemma eligible_iff lines p :
  eligible lines p = true
  <-> exists l, In l lines /\ pid_of l = Some p /\ has_header l = true.
Proof.
  unfold eligible, headers. rewrite in_list_In, in_flat_map. split.
  - intros (l & Hl & H). exists l. split; auto.
    destruct (pid_of l) as [q|]; [|contradiction].
    destruct (has_header l); [|contradiction].
    destruct H as [->|[]]. auto.
  - intros (l & Hl & Hp & Hh). exists l. split; auto.
    rewrite Hp, Hh. now left.
Qed.

Lemma pid_is_true p l : pid_is p l = true <-> pid_of l = Some p.
Proof.
  unfold pid_is. destruct (pid_of l) as [q|]; [|split; discriminate].
  rewrite str_eqb_eq. split; congruence.
Qed.

Lemma stream_nil p lines : ~ In p (pids lines) -> stream p lines = [].
Proof.
  intros H. apply filter_none. intros l Hl.
  destruct (pid_is p l) eqn:E; auto. exfalso. apply H.
  apply pid_is_true in E. unfold pids. apply in_flat_map.
  exists l. split; auto. rewrite E. now left.
Qed.

Lemma same_streams_spec l1 l2 :
  same_streams l1 l2 = true -> forall p, stream p l1 = stream p l2.
Proof.
  unfold same_streams. intros H p. rewrite forallb_forall in H.
  destruct (in_dec (list_eq_dec ascii_dec) p (pids l1 ++ pids l2)) as [I|N].
  - specialize (H p I). unfold lines_eqb in H.
    destruct (list_eq_dec _ _ _); [assumption|discriminate].
  - rewrite !stream_nil; auto; intros X; apply N; apply in_or_app; auto.
Qed.

(** [logStreams] is a function of the process streams and of the order
    in which the identifiers first show a header. *)
Lemma logStreams_streams l1 l2 :
  (forall p, stream p l1 = stream p l2) ->
  first_seen (headers l1) = first_seen (headers l2) ->
  logStreams (demux l1) = logStreams (demux l2).
Proof.
  intros S K. apply DictFacts.ext.
  - apply logStreams_NoDup.
  - now rewrite !logStreams_keys.
  - intros p. rewrite !logStreams_get, !eligible_stream.
    unfold from_header. now rewrite S.
Qed.

Lemma headers_without p lines :
  eligible lines p = false -> headers (without p lines) = headers lines.
Proof.
  unfold eligible, without.
  induction lines as [|l lines IH]; intros H; [reflexivity|].
  change (headers (l :: lines))
    with (match pid_of l with
          | Some q => if has_header l then [q] else []
          | None => []
          end ++ headers lines) in *.
  rewrite in_list_app in H. apply orb_false_iff in H as [H1 H2].
  cbn [filter]. unfold pid_is at 1.
  destruct (pid_of l) as [q|] eqn:Pq.
  - destruct (str_eqb p q) eqn:E; cbn [negb].
    + apply str_eqb_eq in E. subst q.
      destruct (has_header l).
      * simpl in H1. now rewrite str_eqb_refl in H1.
      * simpl. auto.
    + unfold headers at 1. cbn [flat_map]. rewrite Pq.
      fold (headers (filter (fun l => negb (pid_is p l)) lines)).
      now rewrite IH.
  - cbn [negb]. unfold headers at 1. cbn [flat_map]. rewrite Pq.
    fold (headers (filter (fun l => negb (pid_is p l)) lines)).
    now rewrite IH.
Qed.

Lemma stream_without q p lines :
  q <> p -> stream q (without p lines) = stream q lines.
Proof.
  intros N. unfold stream, without.
  induction lines as [|l lines IH]; [reflexivity|]. cbn [filter].
  destruct (pid_is p l) eqn:Ep; cbn [negb].
  - rewrite IH. destruct (pid_is q l) eqn:Eq; auto.
    apply pid_is_true in Ep, Eq. congruence.
  - cbn [filter]. now rewrite IH.
Qed.

(** Deleting the lines of an identifier that never shows a header leaves
    [logStreams] as it was. *)
Lemma logStreams_without p lines :
  eligible lines p = false ->
  logStreams (demux (without p lines)) = logStreams (demux lines).
Proof.
  intros H. pose proof (@headers_without p lines H) as Hh.
  apply DictFacts.ext.
  - apply logStreams_NoDup.
  - now rewrite !logStreams_keys, Hh.
  - intros q. rewrite !logStreams_get. unfold eligible at 1. rewrite Hh.
    fold (eligible lines q).
    destruct (list_eq_dec ascii_dec q p) as [->|N].
    + now rewrite H.
    + unfold from_header. now rewrite stream_without.
Qed.

Section ProcessFacts.
Context {F : PyFloat}.

(** [process] depends on its input through [logStreams] only. *)
Lemma process_logStreams l1 l2 :
  logStreams (demux l1) = logStreams (demux l2) ->
  forall c, process l1 c = process l2 c.
Proof. intros H c. unfold process. now rewrite H. Qed.
End ProcessFacts.

Lemma no_headers_no_streams lines :
  headers lines = [] -> logStreams (demux lines) = [].
Proof.
  intros H. pose proof (logStreams_keys lines) as K. rewrite H in K.
  destruct (logStreams (demux lines)); [reflexivity|discriminate].
Qed.

Module Binary64Facts.
Unset Implicit Arguments.
Import Binary64.
Local Open Scope Z_scope.

Lemma pw_pos k : 0 < pw k.
Proof. unfold pw. apply Z.pow_pos_nonneg; lia. Qed.

Lemma pw_nonneg k : 0 <= k -> pw k = 2 ^ k /\ pw (- k) = 1.
Proof.
intros H. unfold pw. rewrite Z.max_r by lia. rewrite Z.max_l by lia.
split; reflexivity.
Qed.

Lemma pw_neg k : k <= 0 -> pw k = 1 /\ pw (- k) = 2 ^ (- k).
Proof.
intros H. unfold pw. rewrite Z.max_l by lia. rewrite Z.max_r by lia.
split; reflexivity.
Qed.

Lemma pw_shift k M : Z.abs k <= M -> pw k * 2 ^ M = pw (- k) * 2 ^ (M + k).
Proof.
intros H. destruct (Z.le_ge_cases 0 k) as [K|K].
- destruct (pw_nonneg k K) as [-> ->].
  rewrite (Z.pow_add_r 2 M k) by lia. ring.
- destruct (pw_neg k K) as [-> ->].
  rewrite <- (Z.pow_add_r 2 (- k) (M + k)) by lia.
  replace (- k + (M + k)) with M by lia. ring.
Qed.

(** Comparisons of [n / d] with [2^k], once with the split exponents of
  [scale] and once against a common large exponent. *)
Lemma cmp_le n d k M :
Z.abs k <= M ->
(d * pw k <= n * pw (- k) <-> d * 2 ^ (M + k) <= n * 2 ^ M).
Proof.
intros H. pose proof (pw_shift k M H) as S.
pose proof (pw_pos k) as P1. pose proof (pw_pos (- k)) as P2.
assert (T : 0 < 2 ^ M) by (apply Z.pow_pos_nonneg; lia).
assert (U : 0 < 2 ^ (M + k)) by (apply Z.pow_pos_nonneg; lia).
set (P := pw k) in *. set (Q := pw (- k)) in *.
set (t := 2 ^ M) in *. set (u := 2 ^ (M + k)) in *.
clearbody P Q t u. split; intros L.
- assert (X : d * P * t <= n * Q * t) by (apply Z.mul_le_mono_nonneg_r; lia).
  assert (Y : d * u * Q <= n * t * Q).
  { replace (d * u * Q) with (d * (P * t)) by (rewrite S; ring).
    replace (n * t * Q) with (n * Q * t) by ring. lia. }
  apply (Z.mul_le_mono_pos_r _ _ Q P2). exact Y.
- assert (X : d * u * Q <= n * t * Q) by (apply Z.mul_le_mono_nonneg_r; lia).
  assert (Y : d * P * t <= n * Q * t).
  { replace (d * P * t) with (d * (P * t)) by ring. rewrite S.
    replace (d * (Q * u)) with (d * u * Q) by ring.
    replace (n * Q * t) with (n * t * Q) by ring. exact X. }
  apply (Z.mul_le_mono_pos_r _ _ t T). exact Y.
Qed.

Lemma cmp_lt n d k M :
Z.abs k <= M ->
(n * pw (- k) < d * pw k <-> n * 2 ^ M < d * 2 ^ (M + k)).
Proof.
intros H. pose proof (cmp_le n d k M H) as C. lia.
Qed.

Lemma pow2_le a b : 0 <= a <= b -> 2 ^ a <= 2 ^ b.
Proof. intros. apply Z.pow_le_mono_r; lia. Qed.

Lemma pow2_lt a b : 0 <= a < b -> 2 ^ a < 2 ^ b.
Proof. intros. apply Z.pow_lt_mono_r; lia. Qed.

(** [log2_frac] is the floor of the binary logarithm of [n / d]. *)
Lemma log2_frac_spec n d k :
0 < n -> 0 < d ->
d * pw k <= n * pw (- k) -> n * pw (- (k + 1)) < d * pw (k + 1) ->
log2_frac n d = k.
Proof.
intros Hn Hd H1 H2. unfold log2_frac, scale. fold (pw (- (Z.log2 n - Z.log2 d))).
fold (pw (Z.log2 n - Z.log2 d)).
set (a := Z.log2 n). set (b := Z.log2 d). set (e0 := a - b).
pose proof (Z.log2_spec n Hn) as [A1 A2]. fold a in A1, A2.
pose proof (Z.log2_spec d Hd) as [B1 B2]. fold b in B1, B2.
pose proof (Z.log2_nonneg n) as A0. fold a in A0.
pose proof (Z.log2_nonneg d) as B0. fold b in B0.
set (M := Z.abs k + a + b + 3).
apply (cmp_le n d (k) M) in H1; [|unfold M; lia].
apply (cmp_lt n d (k+1) M) in H2; [|unfold M; lia].
assert (T : 0 < 2 ^ M) by (apply Z.pow_pos_nonneg; unfold M; lia).
(* e0 is k or k + 1 *)
assert (E1 : k <= e0).
{ destruct (Z.le_gt_cases k e0) as [|C]; auto. exfalso.
  (* a + 1 <= b + k: n < 2^(a+1) <= 2^(b+k) <= d * 2^k *)
  assert (X : 2 ^ (a + 1) * 2 ^ M <= 2 ^ b * 2 ^ (M + k)).
  { rewrite <- !Z.pow_add_r by (unfold M; lia). apply pow2_le. unfold M; lia. }
  assert (Y : 2 ^ b * 2 ^ (M + k) <= d * 2 ^ (M + k)).
  { apply Z.mul_le_mono_nonneg_r; [|lia]. apply Z.pow_nonneg; lia. }
  assert (W : n * 2 ^ M < 2 ^ (a + 1) * 2 ^ M).
  { apply Z.mul_lt_mono_pos_r; lia. }
  lia. }
assert (E2 : e0 <= k + 1).
{ destruct (Z.le_gt_cases e0 (k + 1)) as [|C]; auto. exfalso.
  (* a >= b + k + 2: d * 2^(k+1) < 2^(b+1+k+1) <= 2^a <= n *)
  assert (X : 2 ^ (b + 1) * 2 ^ (M + (k + 1)) <= 2 ^ a * 2 ^ M).
  { rewrite <- !Z.pow_add_r by (unfold M; lia). apply pow2_le. unfold M; lia. }
  assert (Y : d * 2 ^ (M + (k + 1)) < 2 ^ (b + 1) * 2 ^ (M + (k + 1))).
  { apply Z.mul_lt_mono_pos_r; [|lia]. apply Z.pow_pos_nonneg; unfold M; lia. }
  assert (W : 2 ^ a * 2 ^ M <= n * 2 ^ M).
  { apply Z.mul_le_mono_nonneg_r; lia. }
  lia. }
destruct (Z.ltb_spec (n * pw (- e0)) (d * pw e0)) as [L|L].
- apply (cmp_lt n d (e0) M) in L; [|unfold M, e0; lia].
  destruct (Z.eq_dec e0 k) as [E|E]; [|lia].
  rewrite E in L. lia.
- apply (cmp_le n d (e0) M) in L; [|unfold M, e0; lia].
  destruct (Z.eq_dec e0 (k + 1)) as [E|E]; [|lia].
  rewrite E in L. lia.
Qed.


Lemma round_exact m d : 0 < d -> round_half_even (m * d) d = m.
Proof.
intros H. unfold round_half_even.
rewrite Z.div_mul by lia. rewrite Z.mod_mul by lia.
destruct (Z.ltb_spec d (2 * 0)); [lia|].
destruct (Z.eqb_spec d (2 * 0)); [lia|]. reflexivity.
Qed.

Lemma scale_pw n d e : scale n d e = (n * pw (- e), d * pw e).
Proof. reflexivity. Qed.

Lemma INF_val : INF = 2047 * 2 ^ 52.
Proof. reflexivity. Qed.

(** The mantissa and exponent of a positive finite pattern. *)
Lemma decode_spec x :
0 < x < INF ->
exists m e, decode x = (m, e) /\ 0 < m /\ -1074 <= e
            /\ Z.max (Z.log2 m + e - 52) (-1074) = e
            /\ (e + 1074) * 2 ^ 52 + m = x.
Proof.
intros [H0 H1]. unfold decode.
destruct (Z.ltb_spec x (2 ^ 53)) as [L|L].
- exists x, (-1074). repeat split; try lia.
  assert (Z.log2 x < 53) by (apply Z.log2_lt_pow2; lia). lia.
- pose proof (Z.div_mod x (2 ^ 52) ltac:(lia)) as DM.
  pose proof (Z.mod_pos_bound x (2 ^ 52) ltac:(lia)) as MB.
  assert (Q : 2 <= x / 2 ^ 52).
  { apply Z.div_le_lower_bound; lia. }
  exists (2 ^ 52 + x mod 2 ^ 52), (x / 2 ^ 52 - 1075).
  repeat split; try lia.
  assert (E : Z.log2 (2 ^ 52 + x mod 2 ^ 52) = 52).
  { apply Z.log2_unique; lia. }
  rewrite E. lia.
Qed.

(** Rounding a fraction whose value is a double gives that double. *)
Lemma of_frac_exact x n d m e :
0 < x < INF -> decode x = (m, e) -> 0 <= n -> 0 < d ->
n * pw (- e) = m * pw e * d ->
of_frac n d = x.
Proof.
intros Hx D Hn Hd V.
destruct (decode_spec x Hx) as (m' & e' & D' & Hm & He & Hmax & Hbits).
rewrite D in D'. injection D' as <- <-.
pose proof (pw_pos e) as P1. pose proof (pw_pos (- e)) as P2.
assert (N : 0 < n) by nia.
set (L := Z.log2 m) in *.
pose proof (Z.log2_spec m Hm) as [L1 L2]. fold L in L1, L2.
pose proof (Z.log2_nonneg m) as L0. fold L in L0.
set (M := Z.abs e + L + 3).
assert (T : 0 < 2 ^ M) by (apply Z.pow_pos_nonneg; unfold M; lia).
assert (U : 0 < 2 ^ (M + e)) by (apply Z.pow_pos_nonneg; unfold M; lia).
assert (V' : n * 2 ^ M = m * d * 2 ^ (M + e)).
{ pose proof (pw_shift e M ltac:(unfold M; lia)) as S.
  apply (Z.mul_reg_r _ _ (pw (- e))); [lia|].
  replace (n * 2 ^ M * pw (- e)) with (n * pw (- e) * 2 ^ M) by ring.
  rewrite V.
  replace (m * pw e * d * 2 ^ M) with (m * d * (pw e * 2 ^ M)) by ring.
  rewrite S. ring. }
assert (LG : log2_frac n d = L + e).
{ apply log2_frac_spec; auto.
  - apply (cmp_le n d (L + e) M); [unfold M; lia|].
    rewrite V'. replace (M + (L + e)) with (L + (M + e)) by lia.
    rewrite (Z.pow_add_r 2 L (M + e)) by (unfold M; lia).
    replace (d * (2 ^ L * 2 ^ (M + e))) with (2 ^ L * (d * 2 ^ (M + e))) by ring.
    replace (m * d * 2 ^ (M + e)) with (m * (d * 2 ^ (M + e))) by ring.
    apply Z.mul_le_mono_nonneg_r; lia.
  - apply (cmp_lt n d (L + e + 1) M); [unfold M; lia|].
    rewrite V'. replace (M + (L + e + 1)) with ((L + 1) + (M + e)) by lia.
    rewrite (Z.pow_add_r 2 (L + 1) (M + e)) by (unfold M; lia).
    replace (d * (2 ^ (L + 1) * 2 ^ (M + e)))
      with (2 ^ (L + 1) * (d * 2 ^ (M + e))) by ring.
    replace (m * d * 2 ^ (M + e)) with (m * (d * 2 ^ (M + e))) by ring.
    apply Z.mul_lt_mono_pos_r; lia. }
unfold of_frac. destruct (Z.eqb_spec n 0) as [|_]; [lia|].
rewrite LG, Hmax, scale_pw.
replace (n * pw (- e)) with (m * (d * pw e)) by (rewrite V; ring).
rewrite round_exact by nia. rewrite Hbits. lia.
Qed.

(** A rounded value is a pattern between zero and infinity. *)
Lemma round_half_even_nonneg n d : 0 <= n -> 0 < d -> 0 <= round_half_even n d.
Proof.
intros Hn Hd. unfold round_half_even.
pose proof (Z.div_pos n d Hn Hd).
destruct (_ || _); lia.
Qed.

Lemma of_frac_range n d : 0 <= n -> 0 < d -> 0 <= of_frac n d <= INF.
Proof.
intros Hn Hd. unfold of_frac. destruct (Z.eqb_spec n 0); [rewrite INF_val; lia|].
rewrite scale_pw.
set (e := Z.max _ _).
assert (0 <= round_half_even (n * pw (- e)) (d * pw e)).
{ apply round_half_even_nonneg.
  - pose proof (pw_pos (- e)). nia.
  - pose proof (pw_pos e). nia. }
assert (-1074 <= e) by (unfold e; lia).
assert (0 <= INF) by (rewrite INF_val; lia).
split; [apply Z.min_glb; nia | apply Z.le_min_l].
Qed.


Lemma to_frac_pw x m e :
decode x = (m, e) -> to_frac x = (m * pw e, 1 * pw (- e)).
Proof.
intros D. unfold to_frac. rewrite D, scale_pw.
now rewrite Z.opp_involutive.
Qed.

Lemma of_frac_zero d : of_frac 0 d = 0.
Proof. reflexivity. Qed.

(** [0 + x = x] *)
Lemma add_zero_l x : 0 <= x <= INF -> add 0 x = x.
Proof.
intros Hx. unfold add.
destruct (Z.leb_spec INF 0) as [L|_]; [rewrite INF_val in L; lia|].
destruct (Z.leb_spec INF x) as [L|L]; cbn [orb]; [lia|].
destruct (Z.eq_dec x 0) as [->|N]; [reflexivity|].
destruct (decode_spec x ltac:(lia)) as (m & e & D & Hm & He & _ & _).
rewrite (to_frac_pw 0 0 (-1074) eq_refl), (to_frac_pw x m e D).
pose proof (pw_pos e). pose proof (pw_pos (- e)).
pose proof (pw_pos (-1074)). pose proof (pw_pos (- -1074)).
apply (of_frac_exact x _ _ m e); auto; try lia; try nia.
Qed.

(** [x / 1 = x] *)
Lemma div_one x : 0 <= x <= INF -> div_nat x 1 = x.
Proof.
intros Hx. unfold div_nat.
destruct (Z.leb_spec INF x) as [L|L]; [lia|].
destruct (Z.eq_dec x 0) as [->|N]; [reflexivity|].
destruct (decode_spec x ltac:(lia)) as (m & e & D & Hm & He & _ & _).
rewrite (to_frac_pw x m e D).
pose proof (pw_pos e). pose proof (pw_pos (- e)).
apply (of_frac_exact x _ _ m e); auto; try lia; try nia;
  change (Z.of_nat 1) with 1; try nia.
Qed.

Lemma digit_val_nonneg c : is_digit c = true -> 0 <= digit_val c.
Proof.
unfold is_digit, digit_val. intros H. apply andb_true_iff in H as [H _].
apply Nat.leb_le in H. lia.
Qed.

Lemma read_decimal_range s : forall n d,
0 <= n -> (forall k, d = Some k -> 0 < k) ->
0 <= fst (read_decimal s n d) /\ 0 < snd (read_decimal s n d).
Proof.
induction s as [|c s IH]; intros n d Hn Hd; cbn [read_decimal].
- cbn [fst snd]. split; auto.
  destruct d as [k|]; [apply Hd; reflexivity|lia].
- destruct (is_digit c) eqn:E.
  + apply IH.
    * pose proof (digit_val_nonneg c E). lia.
    * intros k H. destruct d as [k'|]; [|discriminate].
      specialize (Hd k' eq_refl).
      replace k with (10 * k') by congruence. lia.
  + apply IH; auto. intros k H. replace k with 1 by congruence. lia.
Qed.

Lemma of_text_range s : 0 <= of_text s <= INF.
Proof.
unfold of_text.
pose proof (read_decimal_range s 0 None ltac:(lia) ltac:(discriminate)) as R.
destruct (read_decimal s 0 None) as [n d]. simpl in R.
apply of_frac_range; tauto.
Qed.

(** The mean of one value is the value. *)
Lemma mean_one x : 0 <= x <= INF -> div_nat (sum [x]) 1 = x.
Proof.
intros Hx. unfold sum. cbn [fold_left].
rewrite add_zero_l by exact Hx. now apply div_one.
Qed.

End Binary64Facts.

(** ** Entries of the aggregate table *)

Section MeanFacts.
Context {F : PyFloat}.



End MeanFacts.

(** ** The double-precision instance obeys the laws *)

Lemma binary64_order : PyFloatOrder binary64.
Proof.
  split; cbn [flt binary64 float]; unfold Binary64.ltb; intros.
  - apply Z.ltb_ge. apply Z.ltb_lt in H. lia.
  - apply Z.ltb_ge. apply Z.ltb_ge in H, H0. lia.
Qed.

Lemma binary64_mean : PyFloatMean binary64.
Proof.
  split. intros s. cbn [fdiv fsum float_of binary64].
  apply Binary64Facts.mean_one, Binary64Facts.of_text_range.
Qed.

(** * The claims *)

(** C1, as the spec states it, fails: with a line of process 7 before its
    header line, the retained sequence is not every line of process 7 from
    its first occurrence on. *)
Lemma C1_counterexample :
  eligible Sample.early_line (s2l "7") = true
  /\ Dict.get (s2l "7") (logStreams (demux Sample.early_line))
     <> Some (spec_retained (s2l "7") Sample.early_line).
Proof. split; [reflexivity|]. vm_compute. discriminate. Qed.

(** C1, amended: for every input and every identifier that becomes
    eligible, the retained line sequence of that identifier is its stream
    from its first header line on, in input order, each line
    right-stripped; the lines before that header line are not retained. *)
Theorem C1_retained_from_header (lines : list str) (p : str) :
  eligible lines p = true ->
  Dict.get p (logStreams (demux lines)) = Some (from_header p lines).
Proof. intros H. now rewrite logStreams_get, H. Qed.

Lemma C1_witness :
  eligible Sample.early_line (s2l "7") = true
  /\ Dict.get (s2l "7") (logStreams (demux Sample.early_line))
     = Some (from_header (s2l "7") Sample.early_line).
Proof.
  split; [reflexivity|]. apply C1_retained_from_header. reflexivity.
Defined.

(** C2 is not what the code does: when a file name is given and opening
    fails, the failure is reported on the error stream with the file name,
    and then the loop over the unbound [fh] raises; nothing is printed. *)
Theorem C2_open_failure_raises {F : PyFloat} (e : env) (name : str) :
  name <> [] -> open_file e name = None ->
  parseMessages e (Some name) start
  = (inr (UnboundLocalError "fh"),
     {| stdout := []; stderr := [s2l "Error opening " ++ name] |}).
Proof.
  intros N H. destruct name as [|c n]; [congruence|].
  unfold parseMessages, bind_fh, bind. rewrite H. reflexivity.
Qed.

Lemma C2_witness :
  s2l "missing.log" <> []
  /\ open_file Sample.no_files (s2l "missing.log") = None
  /\ @parseMessages binary64 Sample.no_files (Some (s2l "missing.log")) start
     = (inr (UnboundLocalError "fh"),
        {| stdout := [];
           stderr := [s2l "Error opening " ++ s2l "missing.log"] |}).
Proof.
  split; [discriminate|]. split; [reflexivity|].
  apply C2_open_failure_raises; [discriminate|reflexivity].
Defined.

(** C3, as the spec states it, fails: a retained line with thirteen fields
    after the identifier is parsed as a Stat Row. *)
Lemma C3_counterexample :
  rstrip Sample.thirteen = Sample.thirteen
  /\ stat_of Sample.thirteen <> None
  /\ spec_stat_row Sample.thirteen = false.
Proof.
  split; [reflexivity|]. split; [|reflexivity]. vm_compute. discriminate.
Qed.

(** C3, amended: a line is parsed as a Stat Row if and only if it starts
    with text on one line that ends in an identifier token followed by
    twelve fields of the fixed shapes, each preceded by one or more
    spaces; what follows the twelfth field is ignored.  The row holds
    those twelve fields, and a line that does not parse leaves the
    statistics as they were. *)
Theorem C3_stat_row_prefix {F : PyFloat} (line : str) :
  (stat_of line <> None
   <-> exists u rest fs, line = u ++ rest /\ stat_text u fs)
  /\ (forall r, stat_of line = Some r ->
                exists u rest, line = u ++ rest /\ stat_text u (row_fields r))
  /\ (stat_of line = None -> forall t, stats_step t line = t).
Proof.
  split; [split|split].
  - intros H. destruct (stat_of line) as [r|] eqn:E; [|congruence].
    apply stat_of_sound in E. destruct E as (u & rest & E & T).
    exists u, rest, (row_fields r). auto.
  - intros (u & rest & fs & -> & T). eapply stat_of_complete. exact T.
  - intros r. apply stat_of_sound.
  - intros H t. unfold stats_step. now rewrite H.
Qed.





(** C6, as the spec states it, fails: two inputs that are permutations of
    each other and hold each process stream in the same order, yet print
    their two data rows, tied on mean rank, in opposite orders. *)
Lemma C6_counterexample :
  Permutation Sample.first_101 Sample.first_202
  /\ same_streams Sample.first_101 Sample.first_202 = true
  /\ @process binary64 Sample.first_101 start
     <> @process binary64 Sample.first_202 start.
Proof.
  split; [|split; [reflexivity|]].
  - unfold Sample.first_101, Sample.first_202.
    apply (Permutation_app_comm [Sample.header_101; Sample.row_101]
                                [Sample.header_202; Sample.row_202]).
  - intros H.
    apply (f_equal (fun r => nth 4 (stdout (snd r)) [])) in H.
    vm_compute in H. discriminate.
Qed.

(** C6, amended: two inputs that are permutations of each other, hold
    each process stream in the same order and show the first header of
    each eligible process in the same relative order give the same
    aggregate table and the same printed report. *)
Theorem C6_same_header_order {F : PyFloat} (l1 l2 : list str) :
  Permutation l1 l2 ->
  same_streams l1 l2 = true ->
  first_seen (headers l1) = first_seen (headers l2) ->
  avgStatsTable (statsTable (logStreams (demux l1)))
  = avgStatsTable (statsTable (logStreams (demux l2)))
  /\ forall c, process l1 c = process l2 c.
Proof.
  intros _ S K.
  assert (E : logStreams (demux l1) = logStreams (demux l2)).
  { apply logStreams_streams; auto. now apply same_streams_spec. }
  split; [now rewrite E | now apply process_logStreams].
Qed.

Lemma C6_witness :
  Permutation Sample.first_101 Sample.interleaved
  /\ same_streams Sample.first_101 Sample.interleaved = true
  /\ first_seen (headers Sample.first_101)
     = first_seen (headers Sample.interleaved)
  /\ @avgStatsTable binary64
       (statsTable (logStreams (demux Sample.first_101)))
     = avgStatsTable (statsTable (logStreams (demux Sample.interleaved)))
  /\ forall c, @process binary64 Sample.first_101 c
               = process Sample.interleaved c.
Proof.
  assert (P : Permutation Sample.first_101 Sample.interleaved).
  { unfold Sample.first_101, Sample.interleaved. apply perm_skip.
    apply perm_trans with [Sample.header_202; Sample.row_101; Sample.row_202].
    - apply perm_swap.
    - apply perm_skip, perm_swap. }
  split; [exact P|]. split; [reflexivity|]. split; [reflexivity|].
  apply C6_same_header_order; [exact P|reflexivity|reflexivity].
Defined.

(** C7: an identifier none of whose lines holds the header literal has no
    entry in [logStreams], so it is not counted; deleting all its lines
    from the input changes neither the retained streams, nor the
    aggregate table, nor the report. *)
Theorem C7_ineligible_contributes_nothing {F : PyFloat}
        (lines : list str) (p : str) :
  (forall l, In l lines -> pid_of l = Some p -> has_header l = false) ->
  Dict.get p (logStreams (demux lines)) = None
  /\ logStreams (demux lines) = logStreams (demux (without p lines))
  /\ avgStatsTable (statsTable (logStreams (demux lines)))
     = avgStatsTable (statsTable (logStreams (demux (without p lines))))
  /\ forall c, process lines c = process (without p lines) c.
Proof.
  intros H.
  assert (E : eligible lines p = false).
  { destruct (eligible lines p) eqn:X; auto.
    apply eligible_iff in X. destruct X as (l & Hl & Hp & Hh).
    rewrite (H l Hl Hp) in Hh. discriminate. }
  pose proof (@logStreams_without p lines E) as W.
  split; [now rewrite logStreams_get, E|].
  split; [now rewrite W|]. split; [now rewrite W|].
  apply process_logStreams. now rewrite W.
Qed.

Lemma C7_witness :
  (forall l, In l Sample.with_303 -> pid_of l = Some (s2l "303") ->
             has_header l = false)
  /\ Dict.get (s2l "303") (logStreams (demux Sample.with_303)) = None
  /\ logStreams (demux Sample.with_303)
     = logStreams (demux (without (s2l "303") Sample.with_303))
  /\ @avgStatsTable binary64
       (statsTable (logStreams (demux Sample.with_303)))
     = avgStatsTable
         (statsTable (logStreams (demux (without (s2l "303")
                                                 Sample.with_303))))
  /\ forall c, @process binary64 Sample.with_303 c
               = process (without (s2l "303") Sample.with_303) c.
Proof.
  assert (H : forall l, In l Sample.with_303 ->
                        pid_of l = Some (s2l "303") -> has_header l = false).
  { intros l Hl Hp. unfold Sample.with_303 in Hl. simpl In in Hl.
    destruct Hl as [<-|[<-|[<-|[<-|[<-|[]]]]]];
      try reflexivity; vm_compute in Hp; discriminate. }
  split; [exact H|]. apply C7_ineligible_contributes_nothing. exact H.
Defined.

(** C8: when no line carries both an identifier and the header literal,
    in particular on empty input, reading standard input prints the header
    line for 0 processes, its underline of the same length, the column
    headings and their underlines, no data row, nothing on the error
    stream, and raises nothing. *)
Theorem C8_empty_report {F : PyFloat} (e : env) :
  headers (stdin_lines e) = [] ->
  parseMessages e None start
  = (inl tt,
     {| stdout := map s2l
          [ " Average Rule Profile Statistics (across 0 processes) (all rules)";
            " ================================================================";
            "    Num      SID GID Rev      Checks     Matches    Alerts           Microsecs Avg/Check Avg/Match Avg/Nonmatch       dis";
            "    ===      === === ===      ======     =======    ======           ========= ========= ========= ============       ===" ]%string;
        stderr := [] |}).
Proof.
  intros H. unfold parseMessages, bind_fh, bind, ret.
  rewrite process_run. unfold stat_rows.
  rewrite (no_headers_no_streams _ H). reflexivity.
Qed.

Lemma C8_witness :
  headers (stdin_lines (Sample.only_stdin [])) = []
  /\ @parseMessages binary64 (Sample.only_stdin []) None start
     = (inl tt,
        {| stdout := map s2l
             [ " Average Rule Profile Statistics (across 0 processes) (all rules)";
               " ================================================================";
               "    Num      SID GID Rev      Checks     Matches    Alerts           Microsecs Avg/Check Avg/Match Avg/Nonmatch       dis";
               "    ===      === === ===      ======     =======    ======           ========= ========= ========= ============       ===" ]%string;
           stderr := [] |}).
Proof.
  split; [reflexivity|]. apply C8_empty_report. reflexivity.
Defined.


(** C10: when a line holds several identifier tokens, the identifier of
    the line is that of the last one: for a line that is some text
    without a line break, a token, and text without any token, it is the
    digits of that token, whatever tokens the first text holds. *)
Theorem C10_last_token (a d b : str) :
  one_line a = true -> d <> [] -> digits d = true -> has_token b = false ->
  pid_of (a ++ token d ++ b) = Some d.
Proof. apply pid_of_last_token. Qed.

Lemma C10_witness :
  one_line (s2l "ids snort[123]: fwd ") = true
  /\ s2l "45" <> []
  /\ digits (s2l "45") = true
  /\ has_token (s2l " msg") = false
  /\ has_token (s2l "ids snort[123]: fwd ") = true
  /\ pid_of (s2l "ids snort[123]: fwd " ++ token (s2l "45") ++ s2l " msg")
     = Some (s2l "45").
Proof.
  split; [reflexivity|]. split; [discriminate|]. split; [reflexivity|].
  split; [reflexivity|]. split; [reflexivity|].
  apply C10_last_token; [reflexivity|discriminate|reflexivity|reflexivity].
Defined.

(** * Further lemmas *)

Lemma rstrip_app_nonspace s c :
  is_space c = false -> rstrip (s ++ [c]) = s ++ [c].
Proof.
  intros H. induction s as [|x s IH]; cbn [rstrip app].
  - now rewrite H.
  - rewrite IH. destruct s; reflexivity.
Qed.

Lemma rstrip_shape s :
  rstrip s = [] \/ exists u c, rstrip s = u ++ [c] /\ is_space c = false.
Proof.
  induction s as [|x s IH]; cbn [rstrip]; [now left|].
  destruct (rstrip s) as [|y r] eqn:E.
  - destruct (is_space x) eqn:S; [now left|].
    right. exists [], x. auto.
  - right. destruct IH as [IH|(u & c & IH & S)]; [discriminate|].
    exists (x :: u), c. rewrite IH. auto.
Qed.

Lemma rstrip_idem s : rstrip (rstrip s) = rstrip s.
Proof.
  destruct (rstrip_shape s) as [->|(u & c & -> & S)]; [reflexivity|].
  now apply rstrip_app_nonspace.
Qed.

Lemma from_header_shape p lines :
  eligible lines p = true ->
  exists l rest,
    drop_until has_header (stream p lines) = l :: rest
    /\ has_header l = true /\ In l (stream p lines)
    /\ incl rest (stream p lines).
Proof.
  rewrite eligible_stream. generalize (stream p lines) as s.
  induction s as [|x s IH]; cbn [existsb drop_until]; [discriminate|].
  destruct (has_header x) eqn:H.
  - intros _. exists x, s. repeat split; auto.
    + now left.
    + intros y Hy. now right.
  - cbn [orb]. intros E. destruct (IH E) as (l & rest & -> & Hl & I & R).
    exists l, rest. repeat split; auto.
    + now right.
    + intros y Hy. right. now apply R.
Qed.


Lemma drop_until_incl f l : incl (drop_until f l) l.
Proof.
  induction l as [|x l IH]; cbn [drop_until]; [easy|].
  destruct (f x); [apply incl_refl|]. now apply incl_tl.
Qed.

Lemma headers_app a b : headers (a ++ b) = headers a ++ headers b.
Proof. unfold headers. apply flat_map_app. Qed.

Lemma stream_app p a b : stream p (a ++ b) = stream p a ++ stream p b.
Proof. unfold stream. apply filter_app. Qed.

Lemma demux_step_no_pid st l : pid_of l = None -> demux_step st l = st.
Proof. intros H. unfold demux_step. now rewrite H. Qed.

Lemma fold_demux_has_pid lines : forall st,
  fold_left demux_step (filter has_pid lines) st
  = fold_left demux_step lines st.
Proof.
  induction lines as [|l lines IH]; intros st; [reflexivity|].
  rewrite fold_left_step. cbn [filter]. unfold has_pid at 1.
  destruct (pid_of l) eqn:E.
  - rewrite fold_left_step. apply IH.
  - rewrite (demux_step_no_pid st _ E). apply IH.
Qed.

Lemma eligible_app lines more p :
  eligible (lines ++ more) p = eligible lines p || eligible more p.
Proof. unfold eligible. now rewrite headers_app, in_list_app. Qed.

Lemma skip_digits_split s :
  exists ds, s = ds ++ skip_digits s /\ digits ds = true.
Proof.
  induction s as [|c s (ds & E & D)]; cbn [skip_digits].
  - now exists [].
  - destruct (is_digit c) eqn:C.
    + exists (c :: ds). split; [cbn [app]; now f_equal|].
      unfold digits in *. cbn [forallb]. now rewrite C.
    + now exists [].
Qed.

Lemma starts_token_iff s :
  starts_token s = true
  <-> exists d r, s = token d ++ r /\ d <> [] /\ digits d = true.
Proof.
  split.
  - intros H. destruct (starts_token_head _ H) as (s' & ->).
    destruct s' as [|c s']; [discriminate|]. cbn [starts_token] in H.
    apply andb_true_iff in H as (C & H).
    destruct (skip_digits_split s') as (ds & E & D).
    destruct (skip_digits s') as [|x [|y r]]; try discriminate.
    + destruct x as [[] [] [] [] [] [] [] []]; discriminate.
    + destruct x as [[] [] [] [] [] [] [] []]; try discriminate.
      destruct y as [[] [] [] [] [] [] [] []]; try discriminate.
      exists (c :: ds), r. split; [|split; [discriminate|]].
      * unfold token. cbn [s2l list_ascii_of_string app].
        rewrite <- app_assoc. cbn [app]. now rewrite <- E.
      * unfold digits in *. cbn [forallb]. now rewrite C.
  - intros (d & r & -> & N & D). eapply pid_tail_token.
    now apply pid_tail_at.
Qed.

Lemma has_token_starts s : starts_token s = true -> has_token s = true.
Proof.
  intros H. destruct s; [discriminate|]. cbn [has_token]. now rewrite H.
Qed.

Lemma has_token_app u s : has_token s = true -> has_token (u ++ s) = true.
Proof.
  intros H. induction u as [|c u IH]; [exact H|].
  cbn [app has_token]. rewrite IH. apply orb_true_r.
Qed.

Lemma has_token_app_false u s :
  has_token (u ++ s) = false -> has_token s = false.
Proof.
  intros H. destruct (has_token s) eqn:E; [|reflexivity].
  now rewrite (has_token_app u _ E) in H.
Qed.

Lemma has_token_intro a d r :
  d <> [] -> digits d = true -> has_token (a ++ token d ++ r) = true.
Proof.
  intros N D. apply has_token_app, has_token_starts, starts_token_iff.
  now exists d, r.
Qed.

Lemma has_token_last s :
  has_token s = true ->
  exists a d b, s = a ++ token d ++ b /\ d <> [] /\ digits d = true
                /\ has_token b = false.
Proof.
  induction s as [|c s IH]; [discriminate|]. cbn [has_token].
  destruct (has_token s) eqn:T.
  - intros _. destruct (IH eq_refl) as (a & d & b & -> & N & D & B).
    now exists (c :: a), d, b.
  - rewrite orb_false_r. intros H.
    apply starts_token_iff in H. destruct H as (d & r & E & N & D).
    exists [], d, r. split; [exact E|]. split; [exact N|]. split; [exact D|].
    unfold token in E. cbn [s2l list_ascii_of_string app] in E.
    injection E as _ E. rewrite E, <- app_assoc in T.
    apply has_token_app_false in T.
    now apply (has_token_app_false [_; _]) in T.
Qed.

Lemma has_token_snoc_newline s :
  has_token (s ++ [newline]) = has_token s.
Proof.
  destruct (has_token s) eqn:E.
  - apply has_token_last in E. destruct E as (a & d & b & -> & N & D & _).
    rewrite <- !app_assoc. now apply has_token_intro.
  - destruct (has_token (s ++ [newline])) eqn:T; [|reflexivity].
    apply has_token_last in T. destruct T as (a & d & b & T & N & D & _).
    destruct (exists_last (l := b)) as (b' & x & ->).
    + intros ->. rewrite app_nil_r in T. unfold token in T.
      rewrite !app_assoc in T. change (s2l "]:") with ([ "]" ] ++ [ ":" ])%char in T.
      rewrite !app_assoc in T. apply app_inj_tail in T.
      destruct T as (_ & T). discriminate.
    + rewrite !app_assoc in T. apply app_inj_tail in T. destruct T as (-> & _).
      rewrite <- !app_assoc in E. now rewrite has_token_intro in E.
Qed.

Lemma rmatch_scanPid s :
  rmatch scanPid s = rep Any s (fun s' => run pid_tail s' []).
Proof. reflexivity. Qed.

Lemma pid_of_sound l p :
  pid_of l = Some p ->
  exists a b, l = a ++ token p ++ b /\ one_line a = true
              /\ p <> [] /\ digits p = true.
Proof.
  unfold pid_of. destruct (rmatch scanPid l) as [gs|] eqn:E; [|discriminate].
  intros H. injection H as <-. rewrite rmatch_scanPid in E.
  apply rep_sound in E. destruct E as (a & s' & -> & A & E).
  pose proof (pid_tail_token _ E) as T.
  apply starts_token_iff in T. destruct T as (d & r & -> & N & D).
  rewrite pid_tail_at in E by assumption. injection E as <-.
  exists a, r. cbn [nth]. split; [reflexivity|].
  split; [now apply all_in_line|]. now split.
Qed.

Lemma pid_of_complete a d b :
  one_line a = true -> d <> [] -> digits d = true ->
  pid_of (a ++ token d ++ b) <> None.
Proof.
  intros A N D. unfold pid_of.
  destruct (rmatch scanPid (a ++ token d ++ b)) eqn:E; [discriminate|].
  exfalso. revert E. rewrite rmatch_scanPid. apply rep_complete.
  - now apply all_in_line.
  - now rewrite pid_tail_at.
Qed.

Lemma pid_of_no_token l : has_token l = false -> pid_of l = None.
Proof.
  intros H. destruct (pid_of l) as [p|] eqn:E; [|reflexivity].
  apply pid_of_sound in E. destruct E as (a & b & -> & _ & N & D).
  now rewrite has_token_intro in H.
Qed.

Lemma one_line_app a b :
  one_line (a ++ b) = one_line a && one_line b.
Proof. apply forallb_app. Qed.

Lemma pid_of_snoc_newline l :
  one_line l = true -> pid_of (l ++ [newline]) = pid_of l.
Proof.
  intros L. destruct (has_token l) eqn:T.
  - apply has_token_last in T. destruct T as (a & d & b & -> & N & D & B).
    rewrite one_line_app in L. apply andb_true_iff in L as (A & _).
    rewrite <- !app_assoc.
    rewrite !pid_of_last_token; auto.
    now rewrite has_token_snoc_newline.
  - rewrite !pid_of_no_token; auto. now rewrite has_token_snoc_newline.
Qed.

Lemma rstrip_snoc_space s c :
  is_space c = true -> rstrip (s ++ [c]) = rstrip s.
Proof.
  intros H. induction s as [|x s IH]; cbn [app rstrip].
  - now rewrite H.
  - now rewrite IH.
Qed.

Lemma lit_lang t : forall u caps,
  matches_with (map (fun c => A (One (Only c))) t) u caps
  <-> u = t /\ caps = [].
Proof.
  induction t as [|c t IH]; intros u caps; cbn [map matches_with].
  - tauto.
  - split.
    + intros (u1 & u2 & -> & H1 & H2). apply one_is in H1. subst u1.
      apply IH in H2. destruct H2 as (-> & ->). now split.
    + intros (-> & ->). exists [c], t. split; [reflexivity|].
      split; [now apply one_is | now apply IH].
Qed.

Lemma search_sound p s : forall r,
  search p s = Some r -> exists a s', s = a ++ s' /\ rmatch p s' = Some r.
Proof.
  induction s as [|c s IH]; intros r; cbn [search].
  - destruct (rmatch p []) eqn:E; [|discriminate].
    intros H. injection H as <-. now exists [], [].
  - destruct (rmatch p (c :: s)) eqn:E.
    + intros H. injection H as <-. now exists [], (c :: s).
    + intros H. destruct (IH _ H) as (a & s' & -> & R).
      now exists (c :: a), s'.
Qed.

Lemma search_complete p a : forall s,
  rmatch p s <> None -> search p (a ++ s) <> None.
Proof.
  induction a as [|c a IH]; intros s H.
  - cbn [app]. destruct s; cbn [search];
      destruct (rmatch p _); congruence.
  - cbn [app search]. destruct (rmatch p (c :: a ++ s)); [discriminate|].
    now apply IH.
Qed.

Lemma has_header_iff l :
  has_header l = true <-> exists a b, l = a ++ HEADER_TEXT ++ b.
Proof.
  unfold has_header. split.
  - destruct (search scanHeader l) as [r|] eqn:E; [|discriminate].
    intros _. apply search_sound in E. destruct E as (a & s' & -> & E).
    apply run_sound in E. destruct E as (u & b & caps & -> & M & _).
    apply lit_lang in M. destruct M as (-> & _). now exists a, b.
  - intros (a & b & ->).
    destruct (search scanHeader (a ++ HEADER_TEXT ++ b)) eqn:E;
      [reflexivity|].
    exfalso. revert E. apply search_complete. unfold rmatch.
    eapply run_complete. apply lit_lang. split; reflexivity.
Qed.

Lemma has_header_snoc_newline l :
  has_header (l ++ [newline]) = has_header l.
Proof.
  apply eq_true_iff_eq. rewrite !has_header_iff. split.
  - intros (a & b & E). destruct (exists_last (l := b)) as (b' & x & ->).
    + intros ->. rewrite app_nil_r in E.
      change HEADER_TEXT
        with (s2l "Rule Profile Statistics (all rules" ++ [ ")"%char ]) in E.
      rewrite app_assoc in E. apply app_inj_tail in E.
      destruct E as (_ & E). discriminate.
    + rewrite !app_assoc in E. apply app_inj_tail in E.
      destruct E as (-> & _). exists a, b'. now rewrite app_assoc.
  - intros (a & b & ->). exists a, (b ++ [newline]).
    now rewrite <- !app_assoc.
Qed.

Lemma demux_step_terminated st l :
  one_line l = true -> demux_step st (terminated l) = demux_step st l.
Proof.
  intros L. unfold demux_step, terminated.
  rewrite (pid_of_snoc_newline _ L), has_header_snoc_newline.
  now rewrite rstrip_snoc_space by reflexivity.
Qed.

Lemma fold_demux_terminated lines :
  Forall (fun l => one_line l = true) lines ->
  forall st, fold_left demux_step (map terminated lines) st
             = fold_left demux_step lines st.
Proof.
  induction 1 as [|l lines L _ IH]; intros st; [reflexivity|].
  cbn [map]. rewrite !fold_left_step, (demux_step_terminated _ _ L).
  apply IH.
Qed.

Section TieFacts.
Context {F : PyFloat} {O : PyFloatOrder F}.
Variable T : Type.
Variable key : T -> float.

Lemma insert_by_tied v x l :
  filter (tied key v) (insert_by key x l) = filter (tied key v) (x :: l).
Proof.
  induction l as [|y l IH]; cbn [insert_by]; [reflexivity|].
  destruct (flt (key y) (key x)) eqn:Y; [|reflexivity].
  cbn [filter] in *. rewrite IH.
  destruct (tied key v y) eqn:Ty; [|reflexivity].
  destruct (tied key v x) eqn:Tx; [|reflexivity].
  exfalso. unfold tied in Ty, Tx.
  apply andb_true_iff in Ty as (Ty & _). apply andb_true_iff in Tx as (_ & Tx).
  apply negb_true_iff in Ty, Tx.
  rewrite (flt_negtrans _ _ _ Ty Tx) in Y. discriminate.
Qed.

Lemma sorted_tied v l :
  filter (tied key v) (sorted key l) = filter (tied key v) l.
Proof.
  induction l as [|x l IH]; [reflexivity|].
  change (sorted key (x :: l)) with (insert_by key x (sorted key l)).
  rewrite insert_by_tied. cbn [filter]. now rewrite IH.
Qed.
End TieFacts.

Lemma rjust_length w s : length (rjust w s) = Nat.max w (length s).
Proof. unfold rjust. rewrite length_app, repeat_length. lia. Qed.

Lemma fields_fmt_cons w ws args :
  format (fields_fmt (w :: ws)) args
  = s2l " " ++ match args with
               | a :: args' => rjust w a ++ format (fields_fmt ws) args'
               | [] => format (fields_fmt ws) []
               end.
Proof. reflexivity. Qed.

Lemma format_at_least ws : forall args,
  length args = length ws ->
  length ws + list_sum ws <= length (format (fields_fmt ws) args).
Proof.
  induction ws as [|w ws IH]; intros args L; [cbn; lia|].
  destruct args as [|a args]; [discriminate|]. injection L as L.
  rewrite fields_fmt_cons, !length_app, rjust_length.
  specialize (IH _ L). change (length (s2l " ")) with 1.
  change (list_sum (w :: ws)) with (w + list_sum ws). cbn [length]. lia.
Qed.

Lemma format_exact ws : forall args,
  Forall2 (fun w a => length a <= w) ws args ->
  length (format (fields_fmt ws) args) = length ws + list_sum ws.
Proof.
  induction ws as [|w ws IH]; intros args H; inversion H; subst;
    [reflexivity|].
  rewrite fields_fmt_cons, !length_app, rjust_length, IH by assumption.
  change (length (s2l " ")) with 1.
  change (list_sum (w :: ws)) with (w + list_sum ws). cbn [length]. lia.
Qed.

Lemma format_closed ws : forall args,
  length args = length ws ->
  format (fields_fmt ws) args
  = flat_map (fun wa => repeat " "%char (1 + (fst wa - length (snd wa)))
                        ++ snd wa)
             (combine ws args).
Proof.
  induction ws as [|w ws IH]; intros args L; [reflexivity|].
  destruct args as [|a args]; [discriminate|]. injection L as L.
  rewrite fields_fmt_cons, (IH _ L). reflexivity.
Qed.

(** A cell that [words] reads back: not empty and without whitespace. *)
Lemma words_acc_cell a : forall s cur,
  forallb (fun c => negb (is_space c)) a = true ->
  words_acc (a ++ s) cur = words_acc s (cur ++ a).
Proof.
  induction a as [|c a IH]; intros s cur H.
  - now rewrite app_nil_r.
  - cbn [forallb] in H. apply andb_true_iff in H as (C & H).
    apply negb_true_iff in C. cbn [app words_acc]. rewrite C, (IH _ _ H).
    now rewrite <- app_assoc.
Qed.

Lemma words_acc_blanks n s :
  words_acc (repeat " "%char n ++ s) [] = words_acc s [].
Proof. induction n as [|n IH]; [reflexivity|exact IH]. Qed.

Lemma words_acc_format ws : forall args cur,
  length args = length ws ->
  Forall (fun a => a <> []
                   /\ forallb (fun c => negb (is_space c)) a = true) args ->
  words_acc (format (fields_fmt ws) args) cur
  = match cur with [] => [] | _ => [cur] end ++ args.
Proof.
  induction ws as [|w ws IH]; intros args cur L H.
  - destruct args; [|discriminate]. cbn. now rewrite app_nil_r.
  - destruct args as [|a args]; [discriminate|]. injection L as L.
    inversion H as [|? ? (N & S) H']; subst.
    rewrite fields_fmt_cons. unfold rjust. rewrite <- app_assoc.
    assert (E : words_acc (repeat " "%char (w - length a) ++ a
                           ++ format (fields_fmt ws) args) []
                = a :: args).
    { rewrite words_acc_blanks, (words_acc_cell _ _ _ S). cbn [app].
      rewrite (IH _ _ L H'). now destruct a. }
    change (s2l " " ++ ?x) with (" "%char :: x).
    cbn [words_acc]. change (is_space " ") with true. cbn iota.
    rewrite E. now destruct cur.
Qed.

(** * Further properties of the code *)



(** X2: in [statsTable], the nine lists under a signature all have one
    entry per contributing Stat Row, and at least one: no list is ever
    empty or shorter than another. *)
Theorem samples_same_length {F : PyFloat}
        (ls : Dict.t (list str)) (k : str) (s : samples) (f : field) :
  Dict.get k (statsTable ls) = Some s ->
  length (sample_field f s)
  = length (filter (sig_is k) (rows_of (retained ls)))
  /\ 0 < length (sample_field f s).
Proof.
  rewrite statsTable_grouped, grouped_get.
  destruct (in_list k (map sig_of (rows_of (retained ls)))) eqn:I;
    [|discriminate].
  intros E. injection E as <-.
  change (collect add_sample no_samples
            (filter (key_is sig_of k) (rows_of (retained ls))))
    with (samples_of (filter (sig_is k) (rows_of (retained ls)))).
  rewrite sample_field_values. unfold values. rewrite length_map.
  split; [reflexivity|].
  assert (N : filter (sig_is k) (rows_of (retained ls)) <> []).
  { apply in_signatures. unfold signatures.
    apply in_list_In. now rewrite in_first_seen. }
  destruct (filter (sig_is k) (rows_of (retained ls)));
    [congruence | cbn; lia].
Qed.

Lemma samples_same_length_witness :
  Dict.get (s2l "1:100:2")
           (@statsTable binary64 (logStreams (demux Sample.first_101)))
  = Some (samples_of [More.parsed_101])
  /\ length (sample_field Ac (@samples_of binary64 [More.parsed_101]))
     = length (filter (sig_is (s2l "1:100:2"))
                      (rows_of (retained
                                  (logStreams (demux Sample.first_101)))))
  /\ 0 < length (sample_field Ac (@samples_of binary64 [More.parsed_101])).
Proof.
  split; [reflexivity|].
  apply (@samples_same_length binary64
           (logStreams (demux Sample.first_101)) (s2l "1:100:2")
           (samples_of [More.parsed_101]) Ac).
  reflexivity.
Defined.

(** X3: averaging never divides by zero, whatever streams it is given,
    and [avgStatsTable] has the keys of [statsTable] in the same order:
    the signatures by first appearance among the retained lines. *)
Theorem averaging_total {F : PyFloat} (ls : Dict.t (list str)) :
  exists avg,
    avgStatsTable (statsTable ls) = inl avg
    /\ Dict.keys avg = Dict.keys (statsTable ls)
    /\ Dict.keys avg = first_seen (map sig_of (rows_of (retained ls))).
Proof.
  exists (avg_table (rows_of (retained ls))).
  split; [apply avgStatsTable_closed|].
  rewrite avg_table_keys, statsTable_grouped, grouped_keys. now split.
Qed.

(** X4: every retained line is the right-stripped text of an input line
    of that identifier: it is unchanged by another [rstrip] and does not
    end in whitespace. *)
Theorem retained_lines_stripped (lines : list str) (p : str)
        (ls : list str) (l : str) :
  Dict.get p (logStreams (demux lines)) = Some ls -> In l ls ->
  rstrip l = l
  /\ (forall u c, l = u ++ [c] -> is_space c = false)
  /\ exists l0, In l0 lines /\ pid_of l0 = Some p /\ l = rstrip l0.
Proof.
  rewrite logStreams_get. destruct (eligible lines p); [|discriminate].
  intros E I. injection E as <-. unfold from_header in I.
  apply in_map_iff in I. destruct I as (l0 & <- & I).
  apply drop_until_incl in I. apply filter_In in I. destruct I as (I & P).
  split; [apply rstrip_idem|]. split.
  - intros u c E. destruct (rstrip_shape l0) as [Z|(u' & c' & Z & S)].
    + rewrite Z in E. now destruct u.
    + rewrite Z in E. apply app_inj_tail in E. now destruct E as (_ & <-).
  - exists l0. split; [exact I|]. split; [now apply pid_is_true|reflexivity].
Qed.

Lemma retained_lines_stripped_witness :
  Dict.get (s2l "7") (logStreams (demux More.padded))
  = Some (map s2l [ "a[7]: Rule Profile Statistics (all rules)";
                    "a[7]: x" ]%string)
  /\ In (s2l "a[7]: x")
        (map s2l [ "a[7]: Rule Profile Statistics (all rules)";
                   "a[7]: x" ]%string)
  /\ rstrip (s2l "a[7]: x") = s2l "a[7]: x"
  /\ (forall u c, s2l "a[7]: x" = u ++ [c] -> is_space c = false)
  /\ exists l0, In l0 More.padded /\ pid_of l0 = Some (s2l "7")
                /\ s2l "a[7]: x" = rstrip l0.
Proof.
  assert (G : Dict.get (s2l "7") (logStreams (demux More.padded))
              = Some (map s2l [ "a[7]: Rule Profile Statistics (all rules)";
                                "a[7]: x" ]%string))
    by (vm_compute; reflexivity).
  assert (I : In (s2l "a[7]: x")
                 (map s2l [ "a[7]: Rule Profile Statistics (all rules)";
                            "a[7]: x" ]%string))
    by (right; left; reflexivity).
  split; [exact G|]. split; [exact I|].
  exact (@retained_lines_stripped More.padded (s2l "7") _ (s2l "a[7]: x") G I).
Defined.

(** X5: the retained stream of an identifier is never empty: it starts
    with the right-stripped text of a line of that identifier that holds
    the header literal. *)
Theorem retained_starts_at_header (lines : list str) (p : str)
        (ls : list str) :
  Dict.get p (logStreams (demux lines)) = Some ls ->
  exists l rest,
    ls = rstrip l :: rest
    /\ In l lines /\ pid_of l = Some p /\ has_header l = true.
Proof.
  rewrite logStreams_get. destruct (eligible lines p) eqn:E; [|discriminate].
  intros H. injection H as <-.
  destruct (from_header_shape p lines E) as (l & rest & D & Hh & I & _).
  exists l, (map rstrip rest). unfold from_header. rewrite D.
  split; [reflexivity|]. apply filter_In in I. destruct I as (I & P).
  split; [exact I|]. split; [now apply pid_is_true | exact Hh].
Qed.

Lemma retained_starts_at_header_witness :
  Dict.get (s2l "7") (logStreams (demux Sample.early_line))
  = Some (map s2l [ "snort[7]: Rule Profile Statistics (all rules)";
                    "snort[7]: done" ]%string)
  /\ exists l rest,
       map s2l [ "snort[7]: Rule Profile Statistics (all rules)";
                 "snort[7]: done" ]%string = rstrip l :: rest
       /\ In l Sample.early_line /\ pid_of l = Some (s2l "7")
       /\ has_header l = true.
Proof.
  assert (G : Dict.get (s2l "7") (logStreams (demux Sample.early_line))
              = Some (map s2l
                        [ "snort[7]: Rule Profile Statistics (all rules)";
                          "snort[7]: done" ]%string))
    by (vm_compute; reflexivity).
  split; [exact G|].
  exact (@retained_starts_at_header Sample.early_line (s2l "7") _ G).
Defined.

(** X6: the loop of lines 89-99 in closed form: [logStreams] lists the
    identifiers in the order of their first header line, each with its
    stream from that line on, and [logStreamList] holds one entry per
    header line, repeats included. *)
Theorem demux_closed_form (lines : list str) :
  logStreams (demux lines)
  = map (fun p => (p, from_header p lines)) (first_seen (headers lines))
  /\ logStreamList (demux lines) = headers lines.
Proof.
  split; [|apply logStreamList_demux].
  apply DictFacts.ext.
  - apply logStreams_NoDup.
  - rewrite logStreams_keys. unfold Dict.keys. rewrite map_map.
    cbn [fst]. now rewrite map_id.
  - intros k. rewrite logStreams_get, get_tabulate.
    unfold eligible. now rewrite in_first_seen.
Qed.

(** X7: the streams only grow: reading more lines never removes a
    retained stream or changes what it already holds; the stream gains
    exactly the new lines of its identifier, right-stripped. *)
Theorem streams_append_only (lines more : list str) (p : str)
        (ls : list str) :
  Dict.get p (logStreams (demux lines)) = Some ls ->
  Dict.get p (logStreams (demux (lines ++ more)))
  = Some (ls ++ map rstrip (stream p more)).
Proof.
  rewrite !logStreams_get, eligible_app.
  destruct (eligible lines p) eqn:E; [|discriminate].
  intros H. injection H as <-. cbn [orb]. f_equal.
  unfold from_header. rewrite stream_app, drop_until_app.
  rewrite <- eligible_stream, E. apply map_app.
Qed.

Lemma streams_append_only_witness :
  Dict.get (s2l "101") (logStreams (demux [Sample.header_101]))
  = Some [Sample.header_101]
  /\ Dict.get (s2l "101")
              (logStreams (demux ([Sample.header_101]
                                  ++ [Sample.row_202; Sample.row_101])))
     = Some ([Sample.header_101]
             ++ map rstrip (stream (s2l "101")
                                   [Sample.row_202; Sample.row_101])).
Proof.
  assert (G : Dict.get (s2l "101") (logStreams (demux [Sample.header_101]))
              = Some [Sample.header_101]) by (vm_compute; reflexivity).
  split; [exact G|].
  exact (@streams_append_only [Sample.header_101]
           [Sample.row_202; Sample.row_101] (s2l "101") _ G).
Defined.

(** X8: lines on which [scanPid] finds no identifier take no part: the
    state of the loop, and so the report, is the same with those lines
    removed from the input. *)
Theorem lines_without_pid_ignored {F : PyFloat} (lines : list str) :
  demux (filter has_pid lines) = demux lines
  /\ forall c, process (filter has_pid lines) c = process lines c.
Proof.
  assert (E : demux (filter has_pid lines) = demux lines)
    by apply fold_demux_has_pid.
  split; [exact E|]. apply process_logStreams. now rewrite E.
Qed.

(** X9: [scanPid] finds an identifier exactly on the lines that hold a
    token [[digits]:] after text without a line break, and the
    identifier it gives is the digits of such a token. *)
Theorem pid_of_token (l : str) :
  (pid_of l <> None
   <-> exists a d b, l = a ++ token d ++ b /\ one_line a = true
                     /\ d <> [] /\ digits d = true)
  /\ forall p, pid_of l = Some p ->
       exists a b, l = a ++ token p ++ b /\ one_line a = true
                   /\ p <> [] /\ digits p = true.
Proof.
  split; [split|].
  - destruct (pid_of l) as [p|] eqn:E; [|congruence]. intros _.
    apply pid_of_sound in E. destruct E as (a & b & H). now exists a, p, b.
  - intros (a & d & b & -> & A & N & D). now apply pid_of_complete.
  - intros p. apply pid_of_sound.
Qed.

(** X10: a line counts as a header line exactly when the literal text
    [Rule Profile Statistics (all rules)] occurs somewhere in it. *)
Theorem header_line_iff_literal (l : str) :
  has_header l = true <-> exists a b, l = a ++ HEADER_TEXT ++ b.
Proof. apply has_header_iff. Qed.

(** X11: the line terminators play no part: lines read with their
    trailing line break give the same streams and the same report as the
    same lines without it. *)
Theorem line_terminators_irrelevant {F : PyFloat} (lines : list str) :
  Forall (fun l => one_line l = true) lines ->
  demux (map terminated lines) = demux lines
  /\ forall c, process (map terminated lines) c = process lines c.
Proof.
  intros H.
  assert (E : demux (map terminated lines) = demux lines)
    by now apply fold_demux_terminated.
  split; [exact E|]. apply process_logStreams. now rewrite E.
Qed.

Lemma line_terminators_irrelevant_witness :
  Forall (fun l => one_line l = true) Sample.first_101
  /\ demux (map terminated Sample.first_101) = demux Sample.first_101
  /\ forall c, @process binary64 (map terminated Sample.first_101) c
               = process Sample.first_101 c.
Proof.
  assert (H : Forall (fun l => one_line l = true) Sample.first_101)
    by (repeat constructor).
  split; [exact H|].
  exact (@line_terminators_irrelevant binary64 Sample.first_101 H).
Defined.

(** X12: [sorted] is stable: the entries tied on a mean rank come out
    in the order they have in [avgStatsTable], that is by first
    appearance of their signature. *)
Theorem sort_keeps_tied_order {F : PyFloat} {O : PyFloatOrder F}
        (avg : Dict.t averages) (v : float) :
  filter (tied (fun kv => avg_rank (snd kv)) v) (sorted_entries avg)
  = filter (tied (fun kv => avg_rank (snd kv)) v) avg.
Proof. apply sorted_tied. Qed.

Lemma sort_keeps_tied_order_witness :
  PyFloatOrder binary64
  /\ filter (tied (fun kv => avg_rank (snd kv)) (float_of (s2l "1.0")))
            (@sorted_entries binary64
               (avg_table (stat_rows Sample.first_202)))
     = filter (tied (fun kv => avg_rank (snd kv)) (float_of (s2l "1.0")))
              (avg_table (stat_rows Sample.first_202)).
Proof.
  split; [exact binary64_order|].
  exact (@sort_keeps_tied_order binary64 binary64_order
           (avg_table (stat_rows Sample.first_202)) (float_of (s2l "1.0"))).
Defined.

(** X13: a line written with [OUTPUT_FORMAT] holds every one of its
    twelve cells in full: each cell follows one blank and the blanks that
    fill it up to the width of its column, and nothing is cut.  So the
    cells can be read back from the line when they are non-empty and
    free of whitespace; the line has at least 121 characters, and
    exactly 121, so that the columns line up, when every cell fits its
    column. *)
Theorem format_width (args : list str) :
  length args = 12 ->
  format OUTPUT_FORMAT args
  = flat_map (fun wa => repeat " "%char (1 + (fst wa - length (snd wa)))
                        ++ snd wa)
             (combine WIDTHS args)
  /\ (Forall (fun a => a <> []
                       /\ forallb (fun c => negb (is_space c)) a = true)
             args ->
      words (format OUTPUT_FORMAT args) = args)
  /\ 121 <= length (format OUTPUT_FORMAT args)
  /\ (Forall2 (fun w a => length a <= w) WIDTHS args ->
      length (format OUTPUT_FORMAT args) = 121).
Proof.
  intros L. change OUTPUT_FORMAT with (fields_fmt WIDTHS).
  split; [now apply format_closed|]. split; [|split].
  - intros H. unfold words. now rewrite (words_acc_format WIDTHS [] L H).
  - apply (format_at_least WIDTHS args L).
  - apply format_exact.
Qed.

Lemma format_width_witness :
  length OUTPUT_HEADINGS = 12
  /\ format OUTPUT_FORMAT OUTPUT_HEADINGS
     = flat_map (fun wa => repeat " "%char (1 + (fst wa - length (snd wa)))
                           ++ snd wa)
                (combine WIDTHS OUTPUT_HEADINGS)
  /\ (Forall (fun a => a <> []
                       /\ forallb (fun c => negb (is_space c)) a = true)
             OUTPUT_HEADINGS ->
      words (format OUTPUT_FORMAT OUTPUT_HEADINGS) = OUTPUT_HEADINGS)
  /\ 121 <= length (format OUTPUT_FORMAT OUTPUT_HEADINGS)
  /\ (Forall2 (fun w a => length a <= w) WIDTHS OUTPUT_HEADINGS ->
      length (format OUTPUT_FORMAT OUTPUT_HEADINGS) = 121).
Proof.
  split; [reflexivity|]. apply format_width. reflexivity.
Defined.
